(** * The two render servers: image sequence (index.js) and text overlay (server.js)

    Both files are one Express handler for [POST /render].  The handlers are
    embedded as programs in a small state-and-exception monad over a file
    system, with the outside world (clock, remote hosts, the encoder process,
    the object store) given as an environment of oracles. *)

From Stdlib Require Import Ascii.
From stdpp Require Import gmap strings pretty list.

Set Default Proof Using "Type".

(** ** JavaScript strings and arrays *)

Module Js.

(** [String(n)], [`${n}`] and ['...' + n] on a non-negative integer. *)
Definition numberToString (n : N) : string := pretty n.

(** [arr.join('')]. *)
Definition join (l : list string) : string := foldr String.app "" l.

(** [[...s]]: the spread of a string is the array of its characters. *)
Fixpoint spread (s : string) : list string :=
  match s with
  | EmptyString => []
  | String c s' => String c EmptyString :: spread s'
  end.

(** [s.split('/')]. *)
Fixpoint segments (s : string) : list string :=
  match s with
  | EmptyString => [EmptyString]
  | String c s' =>
      if bool_decide (c = "/"%char) then EmptyString :: segments s'
      else match segments s' with
           | seg :: rest => String c seg :: rest
           | [] => [String c EmptyString]
           end
  end.

(** [l.join('/')]. *)
Fixpoint joinSlash (l : list string) : string :=
  match l with
  | [] => EmptyString
  | [x] => x
  | x :: rest => x +:+ "/" +:+ joinSlash rest
  end.

(** Node's POSIX [path.normalize], segment by segment.  [res] is the stack
    of segments kept so far, the last one first: empty segments and [.] are
    dropped, [..] takes the segment before it away, and is itself kept only
    in a relative path that has nothing left to take. *)
Definition normalizeStep (allowAboveRoot : bool) (res : list string) (seg : string)
    : list string :=
  if bool_decide (seg = "") || bool_decide (seg = ".") then res
  else if bool_decide (seg = "..") then
    match res with
    | top :: rest =>
        if bool_decide (top = "..")
        then (if allowAboveRoot then seg :: res else res)
        else rest
    | [] => if allowAboveRoot then [seg] else []
    end
  else seg :: res.

Definition normalizeString (segs : list string) (allowAboveRoot : bool) : list string :=
  reverse (foldl (normalizeStep allowAboveRoot) [] segs).

Definition isAbsolute (p : string) : bool :=
  match p with
  | String c _ => bool_decide (c = "/"%char)
  | EmptyString => false
  end.

Fixpoint endsWithSlash (p : string) : bool :=
  match p with
  | EmptyString => false
  | String c EmptyString => bool_decide (c = "/"%char)
  | String _ p' => endsWithSlash p'
  end.

Definition normalize (path : string) : string :=
  if bool_decide (path = "") then "."
  else
    let isAbs := isAbsolute path in
    let trailingSeparator := endsWithSlash path in
    let p := joinSlash (normalizeString (segments path) (negb isAbs)) in
    if bool_decide (p = "")
    then (if isAbs then "/" else if trailingSeparator then "./" else ".")
    else (if isAbs then "/" else "") +:+ p +:+ (if trailingSeparator then "/" else "").

(** [path.join(dir, name)]: the non-empty arguments joined by a separator,
    then normalised. *)
Definition pathJoin (dir name : string) : string :=
  let joined :=
    if bool_decide (dir = "") then name
    else if bool_decide (name = "") then dir
    else dir +:+ "/" +:+ name in
  if bool_decide (joined = "") then "." else normalize joined.

(** A string without a separator, and a plain name: one that is a single
    segment and stays one when normalised. *)
Fixpoint slashFree (s : string) : bool :=
  match s with
  | EmptyString => true
  | String c s' => negb (bool_decide (c = "/"%char)) && slashFree s'
  end.

Definition plain (x : string) : bool :=
  slashFree x && negb (bool_decide (x = "")) && negb (bool_decide (x = "."))
  && negb (bool_decide (x = "..")).

(** [s.includes(t)]. *)
Fixpoint includes (t s : string) : bool :=
  String.prefix t s ||
  match s with
  | EmptyString => false
  | String _ s' => includes t s'
  end.

End Js.

(** ** The file system *)

Inductive node := Dir | File (size : N).

Global Instance node_eq_dec : EqDecision node.
Proof. solve_decision. Defined.

Module Fs.

(** [p] lies strictly below directory [d]. *)
Definition below (d p : string) : bool := String.prefix (d +:+ "/") p.

(** [fs.existsSync(p)], [fs.mkdirSync(p)], and a write stream on [p]
    that ends after [n] bytes. *)
Definition existsSync (p : string) (fs : gmap string node) : bool :=
  bool_decide (is_Some (fs !! p)).

Definition mkdirSync (p : string) (fs : gmap string node) : gmap string node :=
  <[p := Dir]> fs.

Definition writeFile (p : string) (n : N) (fs : gmap string node) : gmap string node :=
  <[p := File n]> fs.

(** [fs.rmSync(d, { recursive: true, force: true })]. *)
Definition rmSync (d : string) (fs : gmap string node) : gmap string node :=
  filter (λ kv, kv.1 ≠ d ∧ below d kv.1 = false) fs.

(** No entry at or below [d]. *)
Definition clear (d : string) (fs : gmap string node) : Prop :=
  ∀ p, p = d ∨ below d p = true → fs !! p = None.

End Fs.

(** ** Responses, encoder commands, events *)

Inductive jval := JBool (b : bool) | JStr (s : string).

Inductive body :=
  | Json (fields : list (string * jval))
  | Mp4Stream (bytes : N).

Record response := Response { status : nat; contentType : string; payload : body }.

(** [res.status(code).json(obj)] and [res.json(obj)]. *)
Definition json (code : nat) (fields : list (string * jval)) : response :=
  Response code "application/json" (Json fields).




(** One input of a fluent-ffmpeg command with the [loop] call made on it. *)
Record input := Input { source : string; looped : option N }.

(** The calls recorded by a fluent-ffmpeg command builder. *)
Record command := Command {
  inputs : list input;
  filterSpec : list string;
  mapped : list string;
  vcodec : option string;
  acodec : option string;
  outputOpts : list string;
  target : option string
}.

Module Ffmpeg.

Definition ffmpeg (src : option string) : command :=
  Command (from_option (λ p, [Input p None]) [] src) [] [] None None [] None.

Definition addInput (p : string) (c : command) : command :=
  Command (inputs c ++ [Input p None]) (filterSpec c) (mapped c)
          (vcodec c) (acodec c) (outputOpts c) (target c).

(** [loop(d)] applies to the input added last. *)
Definition loop (d : N) (c : command) : command :=
  let ins :=
    match reverse (inputs c) with
    | [] => []
    | i :: rest => reverse (Input (source i) (Some d) :: rest)
    end in
  Command ins (filterSpec c) (mapped c)
          (vcodec c) (acodec c) (outputOpts c) (target c).

Definition complexFilter (spec : list string) (c : command) : command :=
  Command (inputs c) spec (mapped c)
          (vcodec c) (acodec c) (outputOpts c) (target c).

Definition map (label : string) (c : command) : command :=
  Command (inputs c) (filterSpec c) (mapped c ++ [label])
          (vcodec c) (acodec c) (outputOpts c) (target c).

Definition videoCodec (codec : string) (c : command) : command :=
  Command (inputs c) (filterSpec c) (mapped c)
          (Some codec) (acodec c) (outputOpts c) (target c).

Definition audioCodec (codec : string) (c : command) : command :=
  Command (inputs c) (filterSpec c) (mapped c)
          (vcodec c) (Some codec) (outputOpts c) (target c).

Definition outputOptions (opts : list string) (c : command) : command :=
  Command (inputs c) (filterSpec c) (mapped c)
          (vcodec c) (acodec c) (outputOpts c ++ opts) (target c).

Definition save (p : string) (c : command) : command :=
  Command (inputs c) (filterSpec c) (mapped c)
          (vcodec c) (acodec c) (outputOpts c) (Some p).

End Ffmpeg.

(** What the encoder process reports: ['end'] with [bytes] written to the
    target; ['error'] with its diagnostic, possibly leaving a partial file;
    or ['end'] with no file at the target (nothing was written, or the file
    was taken away meanwhile, as the cleanup of a request that shares the
    work directory does). *)
Inductive encoded :=
  | End (bytes : N)
  | Error (diagnostic : string) (partial : option N)
  | EndWithoutFile.

(** What a [fetch] resolves to: a rejection, or a response with its [ok] flag
    and a body.  Piped into the image file, the body ends after [bytes]; or
    the pipeline fails with an error after [written] bytes (the body stream
    or the write stream emits ['error']); or the body stops coming after
    [written] bytes without ending or failing, as when the connection is cut
    short of the announced length: the pipeline then never settles. *)
Inductive stream :=
  | Complete (bytes : N)
  | Broken (written : N) (cause : string)
  | Stalled (written : N).

Inductive fetched :=
  | Unreachable (cause : string)
  | Got (ok : bool) (content : stream).

Inductive uploaded :=
  | Location (url : string)
  | Rejected (cause : string).

Inductive event :=
  | Fetch (url : string)
  | Mkdir (p : string)
  | Store (p : string)
  | Spawn (c : command)
  | Upload (key : string) (from : string)
  | Unlink (p : string)
  | Rm (p : string)
  | Send (r : response)
  | Uncaught (message : string).

(** ** The handler monad: file system and event log, with exceptions *)

Record world := World { files : gmap string node; log : list event }.

(** A step returns, throws, or awaits a promise that never settles: what
    follows it is then never run, its [catch] block included. *)
Inductive outcome (A : Type) :=
  | Ok (a : A)
  | Throw (message : string)
  | Never.
Arguments Ok {A} a.
Arguments Throw {A} message.
Arguments Never {A}.

Definition M (A : Type) : Type := world → outcome A * world.

Global Instance handler_ret : MRet M := λ A a w, (Ok a, w).
Global Instance handler_bind : MBind M := λ A B k m w,
  match m w with
  | (Ok a, w') => k a w'
  | (Throw e, w') => (Throw e, w')
  | (Never, w') => (Never, w')
  end.
Definition throw {A} (message : string) : M A := λ w, (Throw message, w).
Definition never {A} : M A := λ w, (Never, w).
Definition try {A} (m : M A) (handler : string → M A) : M A := λ w,
  match m w with
  | (Ok a, w') => (Ok a, w')
  | (Throw e, w') => handler e w'
  | (Never, w') => (Never, w')
  end.

Definition emit (e : event) : M unit := λ w, (Ok tt, World (files w) (log w ++ [e])).
Definition onFiles (f : gmap string node → gmap string node) : M unit :=
  λ w, (Ok tt, World (f (files w)) (log w)).
Definition getFiles : M (gmap string node) := λ w, (Ok (files w), w).
Definition when (b : bool) (m : M unit) : M unit := if b then m else mret tt.

Definition send (r : response) : M unit := emit (Send r).

(** The response a run sent, if any (the last [Send]). *)
Fixpoint sent (l : list event) : option response :=
  match l with
  | [] => None
  | e :: l' =>
      match sent l' with
      | Some r => Some r
      | None => match e with Send r => Some r | _ => None end
      end
  end.

(** The events of a download. *)
Definition quiet (e : event) : Prop :=
  match e with Fetch _ | Store _ => True | _ => False end.

Definition isSpawn (e : event) : bool := match e with Spawn _ => true | _ => false end.
Definition isFetch (e : event) : bool := match e with Fetch _ => true | _ => false end.
Definition isSend (e : event) : bool := match e with Send _ => true | _ => false end.

Notation "c |> f" := (f c) (at level 45, left associativity, only parsing).

(** Running a composed command: the process is spawned, writes what it writes
    to the command's target, and fires ['end'] or ['error'].  Neither handler
    looks at the target before it goes on after ['end']. *)
Definition leave (c : command) (n : N) : M unit :=
  onFiles (from_option (λ p, Fs.writeFile p n) id (target c)).

Definition run (encoder : command → encoded) (c : command) : M unit :=
  emit (Spawn c);;
  match encoder c with
  | End n => leave c n
  | Error diagnostic partial =>
      from_option (leave c) (mret tt) partial;;
      throw diagnostic
  | EndWithoutFile => onFiles (from_option delete id (target c))
  end.

(** The error of [fs.createReadStream(p)] when it cannot read [p]. *)
Definition cannotRead (p : string) (entry : option node) : string :=
  match entry with
  | Some Dir => "EISDIR: illegal operation on a directory, read"
  | _ => "ENOENT: no such file or directory, open '" +:+ p +:+ "'"
  end.

(** ** index.js: the image-sequence renderer *)

Module Renderer.

Record request := Request {
  images : option (list string);
  captions : option (list string)
}.

(** [__dirname], the value of [Date.now()] when the handler starts, what
    the i-th [fetch] resolves to, and what the encoder does. *)
Record env := Env {
  dirname : string;
  now : N;
  remote : nat → string → fetched;
  encoder : command → encoded
}.

Definition workDir (dirname : string) (now : N) : string :=
  Js.pathJoin dirname ("temp-" +:+ Js.numberToString now).

Definition imgPath (workDir : string) (i : nat) : string :=
  Js.pathJoin workDir ("image-" +:+ Js.numberToString (N.of_nat i) +:+ ".jpg").

Definition outputPath (workDir : string) : string :=
  Js.pathJoin workDir "output.mp4".

(** The download loop, from index [i] on. *)
Fixpoint download (E : env) (workDir : string) (i : nat)
    (images imagePaths : list string) : M (list string) :=
  match images with
  | [] => mret imagePaths
  | url :: rest =>
      let imgPath := imgPath workDir i in
      emit (Fetch url);;
      match remote E i url with
      | Unreachable cause => throw cause
      | Got ok content =>
          if negb ok
          then throw ("Failed to fetch image " +:+ Js.numberToString (N.of_nat i))
          else
            emit (Store imgPath);;
            match content with
            | Complete n => onFiles (Fs.writeFile imgPath n)
            | Broken n cause => onFiles (Fs.writeFile imgPath n);; throw cause
            | Stalled n => onFiles (Fs.writeFile imgPath n);; never
            end;;
            download E workDir (S i) rest (imagePaths ++ [imgPath])
      end
  end.

Definition scalePad (i : nat) : string :=
  "[" +:+ Js.numberToString (N.of_nat i) +:+
  ":v]scale=1080:1920:force_original_aspect_ratio=decrease,pad=1080:1920:(ow-iw)/2:(oh-ih)/2[v" +:+
  Js.numberToString (N.of_nat i) +:+ "];".

Definition label (i : nat) : string :=
  "[v" +:+ Js.numberToString (N.of_nat i) +:+ "]".

Definition concatNode (imagePaths : list string) : string :=
  Js.join (imap (λ i _, label i) imagePaths) +:+
  "concat=n=" +:+ Js.numberToString (N.of_nat (length imagePaths)) +:+ ":v=1:a=0[v]".

Definition complexFilter (imagePaths : list string) : list string :=
  Js.spread (Js.join (imap (λ i _, scalePad i) imagePaths)) ++ [concatNode imagePaths].

Definition renderCommand (imagePaths : list string) (outputPath : string) : command :=
  foldl (λ command p, command |> Ffmpeg.addInput p |> Ffmpeg.loop 3)
        (Ffmpeg.ffmpeg None) imagePaths
    |> Ffmpeg.complexFilter (complexFilter imagePaths)
    |> Ffmpeg.map "[v]"
    |> Ffmpeg.videoCodec "libx264"
    |> Ffmpeg.outputOptions [
         "-pix_fmt yuv420p";
         "-t " +:+ Js.numberToString (N.of_nat (length imagePaths) * 3);
         "-preset ultrafast" ]
    |> Ffmpeg.save outputPath.

Definition cleanup (workDir : string) : M unit :=
  emit (Rm workDir);; onFiles (Fs.rmSync workDir).

(** Piping the output file into the response; the work directory goes when
    the read stream closes.  Without the file the read stream emits an
    ['error'] that nobody listens to: nothing is piped, the response is never
    sent and the ['close'] handler with the cleanup is not reached. *)
Definition streamBack (workDir outputPath : string) : M unit :=
  fs ← getFiles;
  match fs !! outputPath with
  | Some (File n) =>
      send (Response 200 "video/mp4" (Mp4Stream n));;
      cleanup workDir
  | entry => emit (Uncaught (cannotRead outputPath entry))
  end.

(** [if (!fs.existsSync(workDir)) fs.mkdirSync(workDir)]. *)
Definition createTempDir (workDir : string) : M unit :=
  fs ← getFiles;
  when (negb (Fs.existsSync workDir fs))
       (emit (Mkdir workDir);; onFiles (Fs.mkdirSync workDir)).

(** The [catch] block. *)
Definition catch (workDir : string) (error : string) : M unit :=
  send (json 500 [("error", JStr error)]);;
  fs ← getFiles;
  when (Fs.existsSync workDir fs) (cleanup workDir).

Definition render (E : env) (req : request) : M unit :=
  let workDir := workDir (dirname E) (now E) in
  try
    (match images req with
     | None | Some [] => send (json 400 [("error", JStr "No images provided")])
     | Some images =>
         createTempDir workDir;;
         imagePaths ← download E workDir 0 images [];
         let outputPath := outputPath workDir in
         run (encoder E) (renderCommand imagePaths outputPath);;
         streamBack workDir outputPath
     end)
    (catch workDir).

End Renderer.

(** ** server.js: the text-overlay renderer *)

Module Server.

Record request := Request {
  title : option string;
  backgroundVideoUrl : option string;
  videoId : option string
}.

(** [__dirname], the encoder, and what [s3.upload] under a key resolves to. *)
Record env := Env {
  dirname : string;
  encoder : command → encoded;
  s3 : string → uploaded
}.

(** [!v] is false exactly for a present, non-empty string. *)
Definition truthy (v : option string) : bool :=
  match v with
  | Some s => negb (bool_decide (s = ""))
  | None => false
  end.

(** The request passes the check on its first lines. *)
Definition accepted (req : request) : Prop :=
  truthy (backgroundVideoUrl req) = true ∧ truthy (videoId req) = true.

(** [`${v}`]. *)
Definition interpolate (v : option string) : string := default "undefined" v.

Definition TMP_DIR (dirname : string) : string := Js.pathJoin dirname "temp".

(** What the module does when it is loaded:
    [if (!fs.existsSync(TMP_DIR)) fs.mkdirSync(TMP_DIR)]. *)
Definition init (dirname : string) : M unit :=
  fs ← getFiles;
  when (negb (Fs.existsSync (TMP_DIR dirname) fs))
       (emit (Mkdir (TMP_DIR dirname));; onFiles (Fs.mkdirSync (TMP_DIR dirname))).

Definition outputFileName (videoId : string) : string := videoId +:+ "-final-video.mp4".

Definition bgVideoPath (dirname : string) : string :=
  Js.pathJoin (TMP_DIR dirname) "bg.mp4".

Definition drawtext (title : string) : string :=
  "-vf drawtext=text='" +:+ title +:+
  "':fontsize=50:fontcolor=white:x=(w-text_w)/2:y=h-th-50:box=1:boxcolor=black@0.5:boxborderw=10".

Definition renderCommand (title : option string) (bgVideoPath outputPath : string) : command :=
  Ffmpeg.ffmpeg (Some bgVideoPath)
    |> Ffmpeg.videoCodec "libx264"
    |> Ffmpeg.audioCodec "aac"
    |> Ffmpeg.outputOptions [ drawtext (interpolate title); "-pix_fmt yuv420p" ]
    |> Ffmpeg.save outputPath.

Definition renderPromise (E : env) (title : option string)
    (bgVideoPath outputPath : string) : M string :=
  try (run (encoder E) (renderCommand title bgVideoPath outputPath);; mret outputPath)
      (λ message, throw ("FFmpeg failed: " +:+ message)).

(** [s3.upload] with the read stream of [path] as [Body].  Without the
    file the stream fails when it is opened: nothing reaches the object
    store, and the upload rejects with the stream's error. *)
Definition upload (E : env) (key path : string) : M string :=
  fs ← getFiles;
  match fs !! path with
  | Some (File _) =>
      emit (Upload key path);;
      match s3 E key with
      | Location url => mret url
      | Rejected cause => throw cause
      end
  | entry => throw (cannotRead path entry)
  end.

Definition unlinkSync (p : string) : M unit :=
  fs ← getFiles;
  if Fs.existsSync p fs
  then emit (Unlink p);; onFiles (delete p)
  else throw ("ENOENT: no such file or directory, unlink '" +:+ p +:+ "'").

(** The [catch] block. *)
Definition catch (e : string) : M unit :=
  send (json 500 [("success", JBool false);
                  ("error", JStr ("Video rendering failed: " +:+ e))]).

Definition render (E : env) (req : request) : M unit :=
  if negb (truthy (backgroundVideoUrl req)) || negb (truthy (videoId req))
  then send (json 400 [("success", JBool false);
                       ("error", JStr "Missing background video URL or videoId.")])
  else
    let outputFileName := outputFileName (interpolate (videoId req)) in
    let outputPath := Js.pathJoin (TMP_DIR (dirname E)) outputFileName in
    let bgVideoPath := bgVideoPath (dirname E) in
    try
      (finalVideoPath ← renderPromise E (title req) bgVideoPath outputPath;
       location ← upload E outputFileName finalVideoPath;
       unlinkSync finalVideoPath;;
       send (json 200 [("success", JBool true); ("videoUrl", JStr location)]))
      catch.

End Server.

(** The world a handler leaves behind, started on a file system with an empty log. *)
Definition after (m : M unit) (fs : gmap string node) : world := (m (World fs [])).2.

(** What a command tells the encoder apart from the paths it reads and
    writes: how many inputs with which loop counts, the filter graph, the
    mapped streams, the codecs and the output options. *)
Definition shape (c : command)
    : nat * list (option N) * list string * list string
      * option string * option string * list string :=
  (length (inputs c), looped <$> inputs c, filterSpec c, mapped c,
   vcodec c, acodec c, outputOpts c).

(** ** Reading a filter node: the stream labels it starts with *)

Module Filter.

(** The leading [[name]] groups of a node and the text after them;
    [cur] is the label being read, if one is open. *)
Fixpoint readLabels (cur : option string) (s : string) : list string * string :=
  match s with
  | EmptyString => ([], EmptyString)
  | String c s' =>
      match cur with
      | None =>
          if bool_decide (c = "["%char)
          then readLabels (Some EmptyString) s'
          else ([], s)
      | Some name =>
          if bool_decide (c = "]"%char)
          then let '(names, rest) := readLabels None s' in (name :: names, rest)
          else readLabels (Some (name +:+ String c EmptyString)) s'
      end
  end.

Definition labels (s : string) : list string * string := readLabels None s.

Definition isConcat (s : string) : bool := Js.includes "concat=" s.

End Filter.

(** ** The escaping the specification asks for (section 4.3)

    Colon, quote and backslash are the filter graph's special characters;
    each is to be preceded by a backslash before the caption is interpolated. *)

Module Spec.

Definition special (c : ascii) : bool :=
  bool_decide (c = ":"%char) || bool_decide (c = "'"%char) || bool_decide (c = "\"%char).

Fixpoint escapeCaption (s : string) : string :=
  match s with
  | EmptyString => EmptyString
  | String c s' =>
      if special c
      then String "\"%char (String c (escapeCaption s'))
      else String c (escapeCaption s')
  end.

Fixpoint hasSpecial (s : string) : bool :=
  match s with
  | EmptyString => false
  | String c s' => special c || hasSpecial s'
  end.

(** The per-image duration in seconds (section 4.3); index.js writes it
    as the literal 3. *)
Definition perImageDuration : N := 3.

End Spec.

(** ** Digits *)

Definition isDigit (c : ascii) : bool :=
  bool_decide (c ∈ ["0"; "1"; "2"; "3"; "4"; "5"; "6"; "7"; "8"; "9"]%char).

Fixpoint allDigits (s : string) : bool :=
  match s with
  | EmptyString => true
  | String c s' => isDigit c && allDigits s'
  end.


(** ** Shapes of paths, logs and texts that the statements speak of *)

(** The segments of a list, each followed by a separator. *)
Definition joinInit (l : list string) : string :=
  foldr (λ y acc, y +:+ "/" +:+ acc) "" l.

Definition proper (x : string) : Prop :=
  Js.slashFree x = true ∧ x ≠ "" ∧ x ≠ "." ∧ x ≠ "..".

(** What normalising leaves on the stack: proper names above [..]s, which
    only a relative path keeps. *)
Definition stackOk (allow : bool) (res : list string) : Prop :=
  ∃ body k, res = body ++ replicate k ".." ∧ Forall proper body ∧ (allow = false → k = 0).

(** The stack the segments of [d] leave, and with it what [path.join]
    puts before a plain name joined to [d]. *)
Definition stack (d : string) : list string :=
  foldl (Js.normalizeStep (negb (Js.isAbsolute d))) [] (Js.segments d).

Definition stem (d : string) : string :=
  (if Js.isAbsolute d then "/" else "") +:+ joinInit (reverse (stack d)).

(** A path under which plain names nest as they are written. *)
Definition nests (d : string) : Prop :=
  ∀ x, Js.plain x = true → Js.pathJoin d x = d +:+ "/" +:+ x.

(** What index.js has logged when its download loop ends. *)
Definition prelude (e : event) : Prop :=
  match e with Mkdir _ | Fetch _ | Store _ => True | _ => False end.

(** [c] is one of the characters of [s]. *)
Fixpoint occurs (c : ascii) (s : string) : bool :=
  match s with
  | EmptyString => false
  | String d s' => bool_decide (c = d) || occurs c s'
  end.

(** ** Sample requests and environments *)

Module Sample.

(** Scenario B of the specification: three images with their captions. *)
Definition images : list string := ["a.jpg"; "b.jpg"; "c.jpg"].

Definition sequence : Renderer.request :=
  Renderer.Request (Some images) (Some ["one"; "two"; "three"]).

Definition noImages : Renderer.request := Renderer.Request (Some []) None.


(** Every image is served and the encoder completes. *)
Definition renderer : Renderer.env :=
  Renderer.Env "/srv/renderer" 1700000000000
               (λ _ _, Got true (Complete 2048)) (λ _, End 4096).

(** The second image answers 404. *)
Definition missing : Renderer.env :=
  Renderer.Env "/srv/renderer" 1700000000000
               (λ i _, if decide (i = 1) then Got false (Complete 0)
                       else Got true (Complete 2048))
               (λ _, End 4096).

(** The encoder exits with an error. *)
Definition failing : Renderer.env :=
  Renderer.Env "/srv/renderer" 1700000000000
               (λ _ _, Got true (Complete 2048))
               (λ _, Error "Conversion failed!" None).

(** Another process, started elsewhere in another millisecond. *)
Definition elsewhere : Renderer.env :=
  Renderer.Env "/opt/app" 1700000000123
               (λ _ _, Got true (Complete 1)) (λ _, End 1).

(** Scenario A of the specification: a caption over a background clip. *)
Definition overlay : Server.request :=
  Server.Request (Some "Hello") (Some "https://x/bg.mp4") (Some "v1").


Definition quoted : Server.request :=
  Server.Request (Some "it's 5:00") (Some "https://x/bg.mp4") (Some "v1").

Definition bucket (key : string) : uploaded := Location ("https://bucket/" +:+ key).

Definition server : Server.env :=
  Server.Env "/srv/server" (λ _, End 4096) bucket.

(** The object store refuses the upload. *)
Definition denied : Server.env :=
  Server.Env "/srv/server" (λ _, End 4096) (λ _, Rejected "Access Denied").

(** The encoder reports completion over an empty output file. *)
Definition truncated : Server.env :=
  Server.Env "/srv/server" (λ _, End 0) bucket.

(** The encoder exits with an error, leaving nothing. *)
Definition broken : Server.env :=
  Server.Env "/srv/server" (λ _, Error "Conversion failed!" None) bucket.

(** The encoder reports completion and there is no output file. *)
Definition lost : Server.env :=
  Server.Env "/srv/server" (λ _, EndWithoutFile) bucket.

Definition emptyHanded : Renderer.env :=
  Renderer.Env "/srv/renderer" 1700000000000
               (λ _ _, Got true (Complete 2048)) (λ _, EndWithoutFile).

(** The body of the second image stops coming after 1000 bytes. *)
Definition stalling : Renderer.env :=
  Renderer.Env "/srv/renderer" 1700000000000
               (λ i _, if decide (i = 1) then Got true (Stalled 1000)
                       else Got true (Complete 2048))
               (λ _, End 4096).

(** The first image cannot be reached. *)
Definition offline : Renderer.env :=
  Renderer.Env "/srv/renderer" 1700000000000
               (λ i _, if decide (i = 0) then Unreachable "getaddrinfo ENOTFOUND x"
                       else Got true (Complete 2048))
               (λ _, End 4096).

(** A request without a title. *)
Definition untitled : Server.request :=
  Server.Request None (Some "https://x/bg.mp4") (Some "v1").

(** A request without a [videoId]. *)
Definition anonymous : Server.request :=
  Server.Request (Some "Hello") (Some "https://x/bg.mp4") None.

(** A request whose [videoId] points to the directory above. *)
Definition escaping : Server.request :=
  Server.Request (Some "Hello") (Some "https://x/bg.mp4") (Some "../v1").

(** A file system with a file next to the temp directory. *)
Definition beside : gmap string node :=
  {[ "/srv/server/temp" := Dir; "/srv/server/v1-final-video.mp4" := File 5 ]}.

(** A file system where an earlier run left an output for [v1]. *)
Definition stale : gmap string node :=
  {[ "/srv/server/temp" := Dir; "/srv/server/temp/v1-final-video.mp4" := File 777 ]}.

End Sample.

(** * Properties *)

(** ** Strings *)

Section strings.
Implicit Types s t u : string.

Lemma app_cons c s t : String c s +:+ t = String c (s +:+ t).
Proof. reflexivity. Qed.

Lemma app_empty_l s : "" +:+ s = s.
Proof. reflexivity. Qed.

Lemma app_empty_r s : s +:+ "" = s.
Proof. induction s as [|c s IH]; [done|]. by rewrite app_cons, IH. Qed.

Lemma app_assoc' s t u : (s +:+ t) +:+ u = s +:+ (t +:+ u).
Proof. induction s as [|c s IH]; [done|]. by rewrite !app_cons, IH. Qed.

Lemma length_app' s t : String.length (s +:+ t) = String.length s + String.length t.
Proof. induction s as [|c s IH]; [done|]. rewrite app_cons. simpl. by rewrite IH. Qed.

Lemma app_inv_tail' s t u : s +:+ u = t +:+ u → s = t.
Proof.
  revert t. induction s as [|c s IH]; intros [|d t] H.
  - done.
  - apply (f_equal String.length) in H. rewrite !length_app' in H. simpl in H. lia.
  - apply (f_equal String.length) in H. rewrite !length_app' in H. simpl in H. lia.
  - rewrite !app_cons in H. injection H as -> H. f_equal. by apply IH.
Qed.

Lemma prefix_app s t : String.prefix s (s +:+ t) = true.
Proof.
  induction s as [|c s IH]; [by destruct t|].
  rewrite app_cons. simpl. by destruct (Ascii.ascii_dec c c).
Qed.

Lemma prefix_inv s t : String.prefix s t = true → ∃ u, t = s +:+ u.
Proof.
  revert t. induction s as [|c s IH]; intros t H.
  - by exists t.
  - destruct t as [|d t]; [done|]. simpl in H.
    destruct (Ascii.ascii_dec c d) as [->|]; [|done].
    destruct (IH _ H) as [u ->]. by exists u.
Qed.

Lemma join_spread s : Js.join (Js.spread s) = s.
Proof. induction s as [|c s IH]; [done|]. simpl. by rewrite IH. Qed.

Lemma spread_single s : Forall (λ x, String.length x = 1) (Js.spread s).
Proof. induction s as [|c s IH]; simpl; constructor; auto. Qed.

Lemma includes_cons t c s :
  Js.includes t (String c s) = String.prefix t (String c s) || Js.includes t s.
Proof. reflexivity. Qed.

Lemma includes_length t s : Js.includes t s = true → String.length t ≤ String.length s.
Proof.
  induction s as [|c s IH].
  - destruct t; [simpl; lia|done].
  - rewrite includes_cons. intros [H|H]%orb_true_iff.
    + apply prefix_inv in H as [u H]. rewrite H, length_app'. lia.
    + specialize (IH H). simpl. lia.
Qed.

Lemma includes_app t s u : Js.includes t (s +:+ t +:+ u) = true.
Proof.
  induction s as [|c s IH].
  - rewrite app_empty_l. destruct (t +:+ u) as [|c v] eqn:E.
    + destruct t; [done|]. by rewrite app_cons in E.
    + rewrite includes_cons, <-E. by rewrite prefix_app.
  - rewrite app_cons, includes_cons, IH. by rewrite orb_true_r.
Qed.

End strings.

(** ** Decimal numerals *)

Section numerals.

Lemma pretty_N_char_digit x : isDigit (pretty_N_char x) = true.
Proof. unfold pretty_N_char. by repeat case_match. Qed.

Lemma pretty_N_go_digits x s :
  allDigits s = true → allDigits (pretty_N_go x s) = true.
Proof.
  revert s. induction (N.lt_wf_0 x) as [x _ IH]; intros s Hs.
  assert (x = 0 ∨ 0 < x)%N as [->|?] by lia.
  - by rewrite pretty_N_go_0.
  - rewrite pretty_N_go_step by done. apply IH.
    + by apply N.div_lt.
    + simpl. by rewrite pretty_N_char_digit, Hs.
Qed.

Lemma numberToString_digits n : allDigits (Js.numberToString n) = true.
Proof.
  unfold Js.numberToString, pretty, pretty_N.
  case_decide; [done|]. by apply pretty_N_go_digits.
Qed.

Lemma numberToString_inj n m : Js.numberToString n = Js.numberToString m → n = m.
Proof. apply (inj pretty). Qed.


End numerals.

(** ** Paths *)

Section paths.
Implicit Types s t a x z : string.
Implicit Types l L res : list string.

Lemma plain_proper x : Js.plain x = true ↔ proper x.
Proof.
  unfold Js.plain, proper.
  rewrite !andb_true_iff, !negb_true_iff, !bool_decide_eq_false. tauto.
Qed.

Lemma app_ne_empty s x : x ≠ "" → s +:+ x ≠ "".
Proof. intros Hx. destruct s; [done|]. by rewrite app_cons. Qed.

Lemma slashFree_app s t :
  Js.slashFree (s +:+ t) = Js.slashFree s && Js.slashFree t.
Proof.
  induction s as [|c s IH]; [done|]. rewrite app_cons. simpl.
  by rewrite IH, andb_assoc.
Qed.

Lemma segments_ne s : Js.segments s ≠ [].
Proof.
  destruct s as [|c s]; [done|]. simpl.
  case_bool_decide; [done|]. by destruct (Js.segments s).
Qed.

Lemma segments_snoc s : ∃ L z, Js.segments s = L ++ [z].
Proof.
  destruct (Js.segments s) as [|y l] eqn:E using rev_ind; [by apply segments_ne in E|].
  eauto.
Qed.

Lemma segments_slashFree x : Js.slashFree x = true → Js.segments x = [x].
Proof.
  induction x as [|c x IH]; [done|]. simpl.
  intros [Hc Hx]%andb_true_iff. apply negb_true_iff in Hc.
  rewrite Hc. by rewrite IH.
Qed.

Lemma segments_parts s : Forall (λ x, Js.slashFree x = true) (Js.segments s).
Proof.
  induction s as [|c s IH]; [by repeat constructor|]. simpl.
  case_bool_decide as Hc; [by constructor|].
  destruct (Js.segments s) as [|seg rest].
  - repeat constructor. simpl. by rewrite bool_decide_eq_false_2.
  - inversion IH; subst. constructor; [|done]. simpl.
    by rewrite bool_decide_eq_false_2.
Qed.

Lemma segments_app_slash a t :
  Js.segments (a +:+ String "/" t) = Js.segments a ++ Js.segments t.
Proof.
  induction a as [|c a IH]; [done|]. rewrite app_cons. simpl.
  case_bool_decide; [by rewrite IH|].
  rewrite IH. pose proof (segments_ne a). by destruct (Js.segments a).
Qed.

Lemma segments_app_slashFree a x L z :
  Js.slashFree x = true → Js.segments a = L ++ [z] →
  Js.segments (a +:+ x) = L ++ [z +:+ x].
Proof.
  intros Hx. revert L z. induction a as [|c a IH]; intros L z Ha.
  - destruct L as [|y L]; simpl in Ha; [injection Ha as <-|by destruct L].
    rewrite !app_empty_l. by apply segments_slashFree.
  - rewrite app_cons. simpl in *.
    destruct (segments_snoc a) as (L' & z' & Ha').
    rewrite (IH L' z' Ha'). rewrite Ha' in Ha.
    case_bool_decide.
    + rewrite app_comm_cons in Ha. apply app_inj_tail in Ha as [<- <-]. done.
    + destruct L' as [|y L']; simpl in *.
      * destruct L as [|? L]; simpl in Ha; [by injection Ha as <-|by destruct L].
      * rewrite app_comm_cons in Ha. apply app_inj_tail in Ha as [<- <-]. done.
Qed.

Lemma joinSlash_snoc l x : Js.joinSlash (l ++ [x]) = joinInit l +:+ x.
Proof.
  induction l as [|y l IH]; [done|]. simpl.
  rewrite IH, !app_assoc'. by destruct l.
Qed.

Lemma joinInit_snoc l x : joinInit (l ++ [x]) = joinInit l +:+ x +:+ "/".
Proof.
  induction l as [|y l IH]; simpl; [done|]. by rewrite IH, !app_assoc'.
Qed.

Lemma segments_joinSlash l :
  l ≠ [] → Forall (λ x, Js.slashFree x = true) l → Js.segments (Js.joinSlash l) = l.
Proof.
  induction l as [|x l IH]; [done|]. intros _ Hl. inversion Hl; subst.
  destruct l as [|y l]; [by apply segments_slashFree|].
  change (Js.joinSlash (x :: y :: l)) with (x +:+ String "/" (Js.joinSlash (y :: l))).
  rewrite segments_app_slash, IH by done. by rewrite segments_slashFree.
Qed.

Lemma endsWithSlash_slashFree x : Js.slashFree x = true → Js.endsWithSlash x = false.
Proof.
  induction x as [|c x IH]; [done|]. simpl.
  intros [Hc Hx]%andb_true_iff. apply negb_true_iff in Hc.
  destruct x; [done|]. by apply IH.
Qed.

Lemma endsWithSlash_app a x :
  x ≠ "" → Js.slashFree x = true → Js.endsWithSlash (a +:+ x) = false.
Proof.
  intros Hne Hx. induction a as [|c a IH]; [by apply endsWithSlash_slashFree|].
  rewrite app_cons. simpl. destruct (a +:+ x) eqn:E; [|done].
  by apply app_ne_empty in E.
Qed.

Lemma isAbsolute_app a t : a ≠ "" → Js.isAbsolute (a +:+ t) = Js.isAbsolute a.
Proof. by destruct a. Qed.

Lemma isAbsolute_slashFree x : Js.slashFree x = true → Js.isAbsolute x = false.
Proof.
  destruct x as [|c x]; [done|]. simpl.
  intros [Hc _]%andb_true_iff. by apply negb_true_iff in Hc.
Qed.

Lemma normalizeStep_push allow res x :
  x ≠ "" → x ≠ "." → x ≠ ".." → Js.normalizeStep allow res x = x :: res.
Proof.
  intros. unfold Js.normalizeStep. by rewrite !bool_decide_eq_false_2.
Qed.

Lemma normalizeStep_ok allow res seg :
  Js.slashFree seg = true → stackOk allow res → stackOk allow (Js.normalizeStep allow res seg).
Proof.
  intros Hseg (body & k & -> & Hbody & Hk). unfold Js.normalizeStep.
  case_bool_decide as H1; [by exists body, k|].
  case_bool_decide as H2; [by exists body, k|]. simpl.
  case_bool_decide as H3.
  - subst seg. destruct body as [|top body]; simpl.
    + destruct k as [|k]; simpl.
      * destruct allow; [by exists [], 1|by exists [], 0].
      * destruct allow; [by exists [], (S (S k))|]. by specialize (Hk eq_refl).
    + inversion Hbody as [|?? Htop Hrest]; subst.
      rewrite bool_decide_eq_false_2 by apply Htop. by exists body, k.
  - exists (seg :: body), k. split; [done|]. split; [|done].
    constructor; [done|done].
Qed.

Lemma foldl_ok allow segs : ∀ res,
  Forall (λ x, Js.slashFree x = true) segs → stackOk allow res →
  stackOk allow (foldl (Js.normalizeStep allow) res segs).
Proof.
  induction segs as [|seg segs IH]; intros res Hsegs Hres; [done|].
  inversion Hsegs; subst. simpl. apply IH; [done|]. by apply normalizeStep_ok.
Qed.

Lemma foldl_push allow body : ∀ acc,
  Forall proper body →
  foldl (Js.normalizeStep allow) acc (reverse body) = body ++ acc.
Proof.
  induction body as [|b body IH]; intros acc Hbody; [done|].
  inversion Hbody as [|?? (_ & ? & ? & ?) ?]; subst.
  rewrite reverse_cons, foldl_app, IH by done. simpl.
  by rewrite normalizeStep_push.
Qed.

Lemma foldl_dots k : ∀ j,
  foldl (Js.normalizeStep true) (replicate j "..") (replicate k "..") = replicate (k + j) "..".
Proof.
  induction k as [|k IH]; intros j; [done|]. simpl.
  replace (Js.normalizeStep true (replicate j "..") "..") with (replicate (S j) "..").
  - rewrite IH. f_equal. by rewrite Nat.add_succ_r.
  - by destruct j.
Qed.

(** Normalising what is already normal changes nothing. *)
Lemma foldl_replay allow res :
  stackOk allow res → foldl (Js.normalizeStep allow) [] (reverse res) = res.
Proof.
  intros (body & k & -> & Hbody & Hk).
  rewrite reverse_app, reverse_replicate, foldl_app.
  destruct allow.
  - pose proof (foldl_dots k 0) as Hdots. simpl in Hdots.
    rewrite Hdots, Nat.add_0_r. by apply foldl_push.
  - rewrite Hk by done. simpl. rewrite foldl_push by done. done.
Qed.

Lemma stackOk_parts allow res :
  stackOk allow res → Forall (λ x, Js.slashFree x = true ∧ x ≠ "") res.
Proof.
  intros (body & k & -> & Hbody & _). apply Forall_app. split.
  - eapply Forall_impl; [done|]. by intros x (? & ? & _).
  - by apply Forall_replicate.
Qed.

Lemma stack_ok d : stackOk (negb (Js.isAbsolute d)) (stack d).
Proof. apply foldl_ok; [apply segments_parts|]. by exists [], 0. Qed.

Lemma normalize_last a x L z :
  Js.segments a = L ++ [z] →
  Js.slashFree x = true → x ≠ "" → z +:+ x ≠ "." → z +:+ x ≠ ".." →
  Js.normalize (a +:+ x) =
  (if Js.isAbsolute (a +:+ x) then "/" else "") +:+
  joinInit (reverse (foldl (Js.normalizeStep (negb (Js.isAbsolute (a +:+ x)))) [] L)) +:+
  z +:+ x.
Proof.
  intros Ha Hx Hne H1 H2. unfold Js.normalize.
  rewrite bool_decide_eq_false_2 by by apply app_ne_empty.
  rewrite (segments_app_slashFree a x L z) by done.
  unfold Js.normalizeString. rewrite foldl_app. simpl.
  rewrite normalizeStep_push by (try done; by apply app_ne_empty).
  rewrite reverse_cons, joinSlash_snoc.
  rewrite bool_decide_eq_false_2 by (rewrite <-app_assoc'; by apply app_ne_empty).
  rewrite endsWithSlash_app by done. by rewrite app_empty_r.
Qed.

Lemma pathJoin_plain d x : Js.plain x = true → Js.pathJoin d x = stem d +:+ x.
Proof.
  intros (Hx & Hne & H1 & H2)%plain_proper. unfold Js.pathJoin.
  destruct (decide (d = "")) as [->|Hd].
  - simpl. rewrite bool_decide_eq_false_2 by done.
    change x with ("" +:+ x) at 1.
    rewrite (normalize_last "" x [] "") by done.
    change ("" +:+ x) with x. rewrite isAbsolute_slashFree by done. reflexivity.
  - rewrite (bool_decide_eq_false_2 (d = "")) by done.
    rewrite (bool_decide_eq_false_2 (x = "")) by done.
    rewrite bool_decide_eq_false_2 by (rewrite <-app_assoc'; by apply app_ne_empty).
    rewrite <-app_assoc'.
    rewrite (normalize_last (d +:+ "/") x (Js.segments d) "");
      [|by rewrite (segments_app_slash d "")|done..].
    rewrite app_assoc', isAbsolute_app by done.
    change ("" +:+ x) with x. unfold stem, stack. by rewrite app_assoc'.
Qed.

(** The last segment of a joined name keeps what follows its last
    separator, whatever comes before. *)
Lemma pathJoin_suffix d v sfx :
  Js.slashFree sfx = true → 2 < String.length sfx →
  ∃ front, Js.pathJoin d (v +:+ sfx) = front +:+ sfx.
Proof.
  intros Hsfx Hlen.
  assert (sfx ≠ "") as Hne by (intros ->; simpl in Hlen; lia).
  assert (∀ z, z +:+ sfx ≠ ".") as Hz1.
  { intros z H. apply (f_equal String.length) in H.
    rewrite length_app' in H. simpl in H. lia. }
  assert (∀ z, z +:+ sfx ≠ "..") as Hz2.
  { intros z H. apply (f_equal String.length) in H.
    rewrite length_app' in H. simpl in H. lia. }
  destruct (segments_snoc v) as (Lv & zv & Hv).
  unfold Js.pathJoin.
  rewrite (bool_decide_eq_false_2 (v +:+ sfx = "")) by by apply app_ne_empty.
  destruct (decide (d = "")) as [->|Hd].
  - simpl. rewrite bool_decide_eq_false_2 by by apply app_ne_empty.
    rewrite (normalize_last v sfx Lv zv) by done.
    eexists. by rewrite <-!app_assoc'.
  - rewrite (bool_decide_eq_false_2 (d = "")) by done.
    rewrite bool_decide_eq_false_2 by by destruct d.
    rewrite <-!app_assoc'.
    rewrite (normalize_last ((d +:+ "/") +:+ v) sfx (Js.segments d ++ Lv) zv);
      [|rewrite app_assoc'; change ("/" +:+ v) with (String "/" v);
        by rewrite segments_app_slash, Hv, <-app_assoc|done..].
    eexists. by rewrite <-!app_assoc'.
Qed.

Lemma joinSlash_first l x :
  Forall (λ y, Js.slashFree y = true ∧ y ≠ "") l → Js.slashFree x = true → x ≠ "" →
  Js.isAbsolute (Js.joinSlash (l ++ [x])) = false.
Proof.
  intros Hl Hx Hne. destruct l as [|y l]; [by apply isAbsolute_slashFree|].
  inversion Hl as [|?? [Hy Hyne] _]; subst.
  change (Js.joinSlash ((y :: l) ++ [x]))
    with (match l ++ [x] with [] => y | _ => y +:+ "/" +:+ Js.joinSlash (l ++ [x]) end).
  destruct (l ++ [x]); [by apply isAbsolute_slashFree|].
  rewrite isAbsolute_app by done. by apply isAbsolute_slashFree.
Qed.

(** What [path.join] returns for a plain last name is normal: its stack
    is that of the directory with the name on top. *)
Lemma pathJoin_stack d x0 :
  Js.plain x0 = true →
  Js.pathJoin d x0 ≠ "" ∧
  Js.isAbsolute (Js.pathJoin d x0) = Js.isAbsolute d ∧
  stack (Js.pathJoin d x0) = x0 :: stack d.
Proof.
  intros Hx0. rewrite (pathJoin_plain d x0 Hx0).
  apply plain_proper in Hx0 as (Hs0 & Hne0 & H10 & H20).
  pose proof (stack_ok d) as Hok. pose proof (stackOk_parts _ _ Hok) as Hparts.
  set (W := stem d +:+ x0).
  assert (W = (if Js.isAbsolute d then "/" else "") +:+ Js.joinSlash (reverse (stack d) ++ [x0]))
    as HW by (unfold W, stem; by rewrite joinSlash_snoc, app_assoc').
  assert (Forall (λ y, Js.slashFree y = true ∧ y ≠ "") (reverse (stack d))) as Hrev.
  { rewrite Forall_forall in Hparts. apply Forall_forall. intros y Hy.
    apply Hparts. by apply elem_of_reverse. }
  assert (Forall (λ y, Js.slashFree y = true) (reverse (stack d) ++ [x0])) as Hfree.
  { apply Forall_app. split; [|by repeat constructor].
    eapply Forall_impl; [done|]. by intros y [? _]. }
  assert (Js.isAbsolute W = Js.isAbsolute d) as Habs.
  { rewrite HW. destruct (Js.isAbsolute d); [done|].
    rewrite app_empty_l. by apply joinSlash_first. }
  split; [by apply app_ne_empty|]. split; [done|].
  unfold stack at 1. rewrite Habs, HW.
  assert (foldl (Js.normalizeStep (negb (Js.isAbsolute d))) []
            (reverse (stack d) ++ [x0]) = x0 :: stack d) as Hfold.
  { rewrite foldl_app, foldl_replay by done. simpl. by apply normalizeStep_push. }
  destruct (Js.isAbsolute d).
  - change ("/" +:+ ?s) with (String "/" s). simpl.
    rewrite segments_joinSlash; [done| |done]. by destruct (reverse (stack d)).
  - rewrite app_empty_l, segments_joinSlash; [done| |done].
    by destruct (reverse (stack d)).
Qed.

Lemma pathJoin_nests d x0 : Js.plain x0 = true → nests (Js.pathJoin d x0).
Proof.
  intros Hx0 x Hx. rewrite (pathJoin_plain _ x Hx), <-app_assoc'. f_equal.
  destruct (pathJoin_stack d x0 Hx0) as (_ & Habs & Hstack).
  unfold stem at 1. rewrite Habs, Hstack, reverse_cons, joinInit_snoc.
  rewrite (pathJoin_plain d x0 Hx0). unfold stem. by rewrite !app_assoc'.
Qed.

(** A name that starts with [../] is joined to the directory above. *)
Lemma pathJoin_parent d x0 x :
  Js.plain x0 = true → Js.plain x = true →
  Js.pathJoin (Js.pathJoin d x0) ("../" +:+ x) = Js.pathJoin d x.
Proof.
  intros Hx0 Hx. destruct (pathJoin_stack d x0 Hx0) as (Hne & Habs & Hstack).
  rewrite (pathJoin_plain d x Hx).
  apply plain_proper in Hx as (Hs & Hxne & H1 & H2).
  apply plain_proper in Hx0 as (_ & _ & _ & Hdots).
  set (W := Js.pathJoin d x0) in *. unfold Js.pathJoin.
  rewrite (bool_decide_eq_false_2 (W = "")) by done.
  rewrite (bool_decide_eq_false_2 ("../" +:+ x = "")) by done.
  rewrite bool_decide_eq_false_2 by by destruct W.
  replace (W +:+ "/" +:+ "../" +:+ x) with ((W +:+ "/../") +:+ x)
    by (by rewrite !app_assoc').
  rewrite (normalize_last (W +:+ "/../") x (Js.segments W ++ [".."]) "");
    [|by rewrite (segments_app_slash W "../"), <-app_assoc|done..].
  rewrite app_assoc', isAbsolute_app, Habs by done.
  rewrite foldl_app. simpl.
  assert (foldl (Js.normalizeStep (negb (Js.isAbsolute d))) [] (Js.segments W) = x0 :: stack d)
    as -> by (rewrite <-Hstack; unfold stack; by rewrite Habs).
  unfold Js.normalizeStep. simpl. rewrite (bool_decide_eq_false_2 (x0 = "..")) by done.
  unfold stem. by rewrite !app_assoc'.
Qed.

Lemma digits_slashFree s : allDigits s = true → Js.slashFree s = true.
Proof.
  induction s as [|c s IH]; [done|]. simpl.
  intros [Hc Hs]%andb_true_iff. rewrite IH by done.
  rewrite bool_decide_eq_false_2; [done|]. by intros ->.
Qed.

Lemma plain_temp n : Js.plain ("temp-" +:+ Js.numberToString n) = true.
Proof.
  apply plain_proper. unfold proper.
  rewrite slashFree_app, (digits_slashFree (Js.numberToString n))
    by apply numberToString_digits.
  change ("temp-" +:+ ?x) with (String "t" ("emp-" +:+ x)). done.
Qed.

Lemma plain_image i :
  Js.plain ("image-" +:+ Js.numberToString (N.of_nat i) +:+ ".jpg") = true.
Proof.
  apply plain_proper. unfold proper.
  rewrite !slashFree_app, (digits_slashFree (Js.numberToString (N.of_nat i)))
    by apply numberToString_digits.
  change ("image-" +:+ ?x) with (String "i" ("mage-" +:+ x)). done.
Qed.

Lemma plain_outputFileName v :
  Js.slashFree v = true → Js.plain (Server.outputFileName v) = true.
Proof.
  intros Hv. apply plain_proper. unfold proper, Server.outputFileName.
  rewrite slashFree_app, Hv.
  split_and!; [done|..]; intros H; apply (f_equal String.length) in H;
    rewrite length_app' in H; simpl in H; lia.
Qed.

Lemma workDir_nests d (now : N) : nests (Renderer.workDir d now).
Proof. apply pathJoin_nests, plain_temp. Qed.

Lemma TMP_DIR_nests d : nests (Server.TMP_DIR d).
Proof. by apply pathJoin_nests. Qed.

Lemma outputPath_nested wd : nests wd → Renderer.outputPath wd = wd +:+ "/output.mp4".
Proof. intros H. by apply H. Qed.

(** Equal strings with tails of one length have the same tail. *)
Lemma app_inv_length s1 s2 t1 t2 :
  s1 +:+ t1 = s2 +:+ t2 → String.length t1 = String.length t2 → t1 = t2.
Proof.
  revert s2. induction s1 as [|c s1 IH]; intros [|c2 s2] H Hlen.
  - done.
  - apply (f_equal String.length) in H. rewrite app_empty_l, app_cons in H.
    simpl in H. rewrite length_app' in H. lia.
  - apply (f_equal String.length) in H. rewrite app_empty_l, app_cons in H.
    simpl in H. rewrite length_app' in H. lia.
  - rewrite !app_cons in H. injection H as _ H. by apply (IH s2).
Qed.

End paths.

(** ** The file system *)

Section files.
Implicit Types fs : gmap string node.
Implicit Types d p : string.

Lemma below_self d : Fs.below d d = false.
Proof.
  unfold Fs.below. destruct (String.prefix (d +:+ "/") d) eqn:H; [|done].
  apply prefix_inv in H as [u H]. apply (f_equal String.length) in H.
  rewrite !length_app' in H. simpl in H. lia.
Qed.

Lemma below_nested d x : Fs.below d (d +:+ "/" +:+ x) = true.
Proof. unfold Fs.below. rewrite <-app_assoc'. apply prefix_app. Qed.

Lemma below_pathJoin d name :
  nests d → Js.plain name = true → Fs.below d (Js.pathJoin d name) = true.
Proof. intros Hd Hname. rewrite (Hd name Hname). apply below_nested. Qed.

Lemma pathJoin_ne d name : nests d → Js.plain name = true → Js.pathJoin d name ≠ d.
Proof.
  intros Hd Hname H. pose proof (below_pathJoin d name Hd Hname) as B. rewrite H in B.
  by rewrite below_self in B.
Qed.

Lemma rmSync_lookup_in d p fs :
  p = d ∨ Fs.below d p = true → Fs.rmSync d fs !! p = None.
Proof.
  intros H. unfold Fs.rmSync. apply map_lookup_filter_None. right.
  intros x _ [H1 H2]. simpl in *. destruct H as [->|H]; [done|congruence].
Qed.

Lemma rmSync_lookup_out d p fs :
  p ≠ d → Fs.below d p = false → Fs.rmSync d fs !! p = fs !! p.
Proof.
  intros H1 H2. unfold Fs.rmSync.
  destruct (fs !! p) as [x|] eqn:E.
  - by apply map_lookup_filter_Some.
  - apply map_lookup_filter_None. by left.
Qed.

Lemma rmSync_lookup d p fs :
  Fs.rmSync d fs !! p = if decide (p = d ∨ Fs.below d p = true) then None else fs !! p.
Proof.
  case_decide as H.
  - by apply rmSync_lookup_in.
  - apply rmSync_lookup_out; [tauto|]. destruct (Fs.below d p); tauto.
Qed.

(** Writing at or below [d] is invisible once [d] is removed. *)
Lemma rmSync_insert d p x fs :
  p = d ∨ Fs.below d p = true → Fs.rmSync d (<[p:=x]> fs) = Fs.rmSync d fs.
Proof.
  intros H. apply map_eq. intros q. rewrite !rmSync_lookup.
  case_decide as Hq; [done|]. apply lookup_insert_ne. intros ->. tauto.
Qed.


Lemma existsSync_true p fs : Fs.existsSync p fs = true ↔ is_Some (fs !! p).
Proof. unfold Fs.existsSync. apply bool_decide_eq_true. Qed.

End files.

(** ** The download loop of index.js *)

Section download.
Variable E : Renderer.env.
Variable wd : string.

(** One round of the loop, by what the fetch resolves to. *)
Lemma download_cons i url rest acc w :
  Renderer.download E wd i (url :: rest) acc w =
  let p := Renderer.imgPath wd i in
  match Renderer.remote E i url with
  | Unreachable cause => (Throw cause, World (files w) (log w ++ [Fetch url]))
  | Got false _ =>
      (Throw ("Failed to fetch image " +:+ Js.numberToString (N.of_nat i)),
       World (files w) (log w ++ [Fetch url]))
  | Got true (Complete n) =>
      Renderer.download E wd (S i) rest (acc ++ [p])
        (World (<[p := File n]> (files w)) ((log w ++ [Fetch url]) ++ [Store p]))
  | Got true (Broken n cause) =>
      (Throw cause, World (<[p := File n]> (files w)) ((log w ++ [Fetch url]) ++ [Store p]))
  | Got true (Stalled n) =>
      (Never, World (<[p := File n]> (files w)) ((log w ++ [Fetch url]) ++ [Store p]))
  end.
Proof.
  simpl. unfold mbind, handler_bind, emit. simpl.
  destruct (Renderer.remote E i url) as [cause|[] [n|n cause|n]]; reflexivity.
Qed.

(** The loop only fetches and stores. *)
Lemma download_log imgs : ∀ i acc w,
  ∃ l, log (Renderer.download E wd i imgs acc w).2 = log w ++ l ∧ Forall quiet l.
Proof.
  induction imgs as [|url rest IH]; intros i acc w.
  - exists []. by rewrite app_nil_r.
  - rewrite download_cons.
    destruct (Renderer.remote E i url) as [cause|[] [n|n cause|n]]; simpl.
    + exists [Fetch url]. split; [done|]. by repeat constructor.
    + destruct (IH (S i) (acc ++ [Renderer.imgPath wd i])
        (World (<[Renderer.imgPath wd i := File n]> (files w))
               ((log w ++ [Fetch url]) ++ [Store (Renderer.imgPath wd i)])))
        as (l & -> & Hl).
      exists (Fetch url :: Store (Renderer.imgPath wd i) :: l). simpl.
      split; [by rewrite <-!app_assoc|]. by repeat constructor.
    + exists [Fetch url; Store (Renderer.imgPath wd i)].
      split; [by rewrite <-!app_assoc|]. by repeat constructor.
    + exists [Fetch url; Store (Renderer.imgPath wd i)].
      split; [by rewrite <-!app_assoc|]. by repeat constructor.
    + exists [Fetch url]. split; [done|]. by repeat constructor.
    + exists [Fetch url]. split; [done|]. by repeat constructor.
    + exists [Fetch url]. split; [done|]. by repeat constructor.
Qed.

(** Everything the loop writes lies below the work directory. *)
Lemma download_files imgs : ∀ i acc w,
  nests wd →
  let w' := (Renderer.download E wd i imgs acc w).2 in
  Fs.rmSync wd (files w') = Fs.rmSync wd (files w) ∧
  files w' !! wd = files w !! wd.
Proof.
  induction imgs as [|url rest IH]; intros i acc w Hwd; [done|].
  rewrite download_cons.
  assert (∀ n, Fs.rmSync wd (<[Renderer.imgPath wd i := File n]> (files w))
               = Fs.rmSync wd (files w)) as Hrm.
  { intros n. apply rmSync_insert. right. apply below_pathJoin; [done|apply plain_image]. }
  assert (∀ n, <[Renderer.imgPath wd i := File n]> (files w) !! wd = files w !! wd) as Hin.
  { intros n. apply lookup_insert_ne, pathJoin_ne; [done|apply plain_image]. }
  destruct (Renderer.remote E i url) as [cause|[] [n|n cause|n]]; simpl; auto.
  destruct (IH (S i) (acc ++ [Renderer.imgPath wd i])
    (World (<[Renderer.imgPath wd i := File n]> (files w))
           ((log w ++ [Fetch url]) ++ [Store (Renderer.imgPath wd i)])) Hwd)
    as [H1 H2].
  simpl in *. by rewrite H1, H2, Hrm, Hin.
Qed.

(** A completed loop returns one path per image, in order. *)
Lemma download_ok imgs : ∀ i acc w paths,
  (Renderer.download E wd i imgs acc w).1 = Ok paths →
  paths = acc ++ imap (λ j _, Renderer.imgPath wd (i + j)) imgs.
Proof.
  induction imgs as [|url rest IH]; intros i acc w paths.
  - simpl. intros [= <-]. by rewrite app_nil_r.
  - rewrite download_cons.
    destruct (Renderer.remote E i url) as [cause|[] [n|n cause|n]]; simpl; try done.
    intros H. apply IH in H. rewrite H, <-app_assoc. simpl.
    rewrite Nat.add_0_r. do 2 f_equal. apply imap_ext. intros j x _. simpl.
    f_equal. lia.
Qed.

(** A non-success response anywhere in the batch: the loop does not
    complete, and it throws unless an earlier body stalls. *)
Lemma download_aborts imgs : ∀ i acc w k url content,
  imgs !! k = Some url →
  Renderer.remote E (i + k) url = Got false content →
  (∀ paths, (Renderer.download E wd i imgs acc w).1 ≠ Ok paths) ∧
  ((∀ j u n, j < k → imgs !! j = Some u →
             Renderer.remote E (i + j) u ≠ Got true (Stalled n)) →
   ∃ message, (Renderer.download E wd i imgs acc w).1 = Throw message).
Proof.
  induction imgs as [|u rest IH]; intros i acc w k url content Hk Hr; [done|].
  rewrite download_cons.
  destruct k as [|k]; simpl in Hk.
  - injection Hk as ->. rewrite Nat.add_0_r in Hr. rewrite Hr. simpl.
    split; [done|eauto].
  - destruct (Renderer.remote E i u) as [cause|[] [n|n cause|n]] eqn:Hu; simpl;
      try (split; [done|by eauto]).
    + edestruct (IH (S i) (acc ++ [Renderer.imgPath wd i])
        (World (<[Renderer.imgPath wd i := File n]> (files w))
               ((log w ++ [Fetch u]) ++ [Store (Renderer.imgPath wd i)])) k url content Hk)
        as [H1 H2]; [by replace (S i + k) with (i + S k) by lia|].
      split; [done|]. intros Hstall. apply H2.
      intros j v m Hj Hv. replace (S i + j) with (i + S j) by lia.
      apply (Hstall (S j) v m); [lia|done].
    + split; [done|]. intros Hstall. exfalso.
      apply (Hstall 0 u n); [lia|done|]. by rewrite Nat.add_0_r.
Qed.

(** At the first non-success response the loop stops there, with that
    image's message, having fetched no image after it. *)
Lemma download_first imgs : ∀ i acc w k url content,
  imgs !! k = Some url →
  Renderer.remote E (i + k) url = Got false content →
  (∀ j u, j < k → imgs !! j = Some u →
          ∃ n, Renderer.remote E (i + j) u = Got true (Complete n)) →
  let r := Renderer.download E wd i imgs acc w in
  r.1 = Throw ("Failed to fetch image " +:+ Js.numberToString (N.of_nat (i + k))) ∧
  ∃ l, log r.2 = log w ++ l ∧ filter (λ e, isFetch e = true) l = Fetch <$> take (S k) imgs.
Proof.
  induction imgs as [|u rest IH]; intros i acc w k url content Hk Hr Hbefore; [done|].
  rewrite download_cons.
  destruct k as [|k]; simpl in Hk.
  - injection Hk as ->. rewrite Nat.add_0_r in Hr. rewrite Hr, Nat.add_0_r. simpl.
    split; [done|]. by exists [Fetch url].
  - destruct (Hbefore 0 u) as [n Hn]; [lia|done|].
    rewrite Nat.add_0_r in Hn. rewrite Hn.
    edestruct (IH (S i) (acc ++ [Renderer.imgPath wd i])
      (World (<[Renderer.imgPath wd i := File n]> (files w))
             ((log w ++ [Fetch u]) ++ [Store (Renderer.imgPath wd i)])) k url content)
      as (H1 & l & H2 & H3); [done|by replace (S i + k) with (i + S k) by lia| |].
    { intros j v Hj Hv. destruct (Hbefore (S j) v) as [m Hm]; [lia|done|].
      exists m. by replace (S i + j) with (i + S j) by lia. }
    simpl in *. split; [by replace (i + S k) with (S i + k) by lia|].
    exists (Fetch u :: Store (Renderer.imgPath wd i) :: l).
    split; [by rewrite H2, <-!app_assoc|].
    rewrite filter_cons_True by done. rewrite filter_cons_False by done.
    by rewrite H3.
Qed.

End download.

(** ** The handler of index.js, path by path *)

Local Arguments Renderer.download : simpl never.

Section renderer.
Variable E : Renderer.env.

Let wd := Renderer.workDir (Renderer.dirname E) (Renderer.now E).
Let out := Renderer.outputPath wd.

Lemma renderer_catch error w :
  Renderer.catch wd error w =
  (Ok tt,
   if Fs.existsSync wd (files w)
   then World (Fs.rmSync wd (files w))
              ((log w ++ [Send (json 500 [("error", JStr error)])]) ++ [Rm wd])
   else World (files w) (log w ++ [Send (json 500 [("error", JStr error)])])).
Proof.
  unfold Renderer.catch, send, emit, getFiles, mbind, handler_bind. simpl.
  destruct (Fs.existsSync wd (files w)); reflexivity.
Qed.

Lemma renderer_invalid req w :
  Renderer.images req = None ∨ Renderer.images req = Some [] →
  Renderer.render E req w =
  (Ok tt, World (files w) (log w ++ [Send (json 400 [("error", JStr "No images provided")])])).
Proof. unfold Renderer.render, try. by intros [-> | ->]. Qed.

Lemma createTempDir_ok w : ∃ w1, Renderer.createTempDir wd w = (Ok (), w1).
Proof.
  unfold Renderer.createTempDir, mbind, handler_bind, getFiles, when. simpl.
  destruct (Fs.existsSync wd (files w)); simpl; eauto.
Qed.

(** The world in which the download loop starts. *)
Lemma renderer_start w :
  let w1 := (Renderer.createTempDir wd w).2 in
  Fs.rmSync wd (files w1) = Fs.rmSync wd (files w) ∧
  Fs.existsSync wd (files w1) = true ∧
  (log w1 = log w ∨ log w1 = log w ++ [Mkdir wd]).
Proof.
  unfold Renderer.createTempDir, mbind, handler_bind, getFiles, when. simpl.
  destruct (Fs.existsSync wd (files w)) eqn:Hex; simpl; [by auto|].
  split; [apply rmSync_insert; by left|]. split; [|by auto].
  apply existsSync_true. unfold Fs.mkdirSync. rewrite lookup_insert_eq. eauto.
Qed.

Lemma renderer_valid req imgs w :
  Renderer.images req = Some imgs → imgs ≠ [] →
  Renderer.render E req w =
  match Renderer.download E wd 0 imgs [] (Renderer.createTempDir wd w).2 with
  | (Throw error, w2) => Renderer.catch wd error w2
  | (Never, w2) => (Never, w2)
  | (Ok imagePaths, w2) =>
      let c := Renderer.renderCommand imagePaths out in
      match Renderer.encoder E c with
      | End n =>
          (Ok tt,
           World (Fs.rmSync wd (<[out := File n]> (files w2)))
                 (((log w2 ++ [Spawn c])
                     ++ [Send (Response 200 "video/mp4" (Mp4Stream n))]) ++ [Rm wd]))
      | Error diagnostic partial =>
          Renderer.catch wd diagnostic
            (World (from_option (λ n, <[out := File n]>) id partial (files w2))
                   (log w2 ++ [Spawn c]))
      | EndWithoutFile =>
          (Ok tt,
           World (delete out (files w2))
                 ((log w2 ++ [Spawn c]) ++ [Uncaught (cannotRead out None)]))
      end
  end.
Proof.
  intros Himg Hne. unfold Renderer.render, try. rewrite Himg.
  destruct imgs as [|url rest]; [done|]. fold wd. fold out.
  generalize (url :: rest) as imgs. clear. intros imgs.
  destruct (createTempDir_ok w) as [w1 Hw1].
  unfold mbind, handler_bind. rewrite Hw1. simpl.
  destruct (Renderer.download E wd 0 imgs [] w1) as [[paths|e|] w2]; [|done..].
  unfold run, mbind, handler_bind, emit. simpl.
  destruct (Renderer.encoder E (Renderer.renderCommand paths out)) as [n|d [n|]|];
    simpl; [|done..|].
  - unfold Renderer.streamBack, mbind, handler_bind, getFiles, leave, onFiles. simpl.
    unfold Fs.writeFile. by rewrite lookup_insert_eq.
  - unfold Renderer.streamBack, mbind, handler_bind, getFiles, onFiles. simpl.
    by rewrite lookup_delete_eq.
Qed.

Lemma createTempDir_log fs :
  log (Renderer.createTempDir wd (World fs [])).2 =
  if Fs.existsSync wd fs then [] else [Mkdir wd].
Proof.
  unfold Renderer.createTempDir, mbind, handler_bind, getFiles, when. simpl.
  by destruct (Fs.existsSync wd fs).
Qed.

(** The world in which the download loop ends: the work directory is
    there, nothing outside it has changed, and the log holds the making of
    the directory, the fetches and the stores. *)
Lemma renderer_downloaded imgs fs :
  let w2 := (Renderer.download E wd 0 imgs [] (Renderer.createTempDir wd (World fs [])).2).2 in
  (∃ l, log w2 = (if Fs.existsSync wd fs then [] else [Mkdir wd]) ++ l ∧ Forall quiet l) ∧
  Fs.rmSync wd (files w2) = Fs.rmSync wd fs ∧
  Fs.existsSync wd (files w2) = true.
Proof.
  intros w2. pose proof (workDir_nests (Renderer.dirname E) (Renderer.now E)) as Hwd.
  fold wd in Hwd.
  destruct (renderer_start (World fs [])) as (Hrm & Hex & _).
  set (w1 := (Renderer.createTempDir wd (World fs [])).2) in *.
  pose proof (createTempDir_log fs) as Hlog1. fold w1 in Hlog1.
  destruct (download_log E wd imgs 0 [] w1) as (l & Hl & Hquiet).
  destruct (download_files E wd imgs 0 [] w1 Hwd) as [Hrm2 Hwd2].
  split_and!.
  - exists l. by rewrite <-Hlog1.
  - unfold w2. by rewrite Hrm2.
  - apply existsSync_true. unfold w2. rewrite Hwd2. by apply existsSync_true.
Qed.

(** A request with images, by how its download loop and its encoder end. *)
Lemma renderer_run req imgs fs :
  Renderer.images req = Some imgs → imgs ≠ [] →
  Renderer.render E req (World fs []) =
  match Renderer.download E wd 0 imgs [] (Renderer.createTempDir wd (World fs [])).2 with
  | (Throw error, w2) =>
      (Ok tt,
       World (Fs.rmSync wd fs)
             (log w2 ++ [Send (json 500 [("error", JStr error)]); Rm wd]))
  | (Never, w2) => (Never, w2)
  | (Ok imagePaths, w2) =>
      let c := Renderer.renderCommand imagePaths out in
      match Renderer.encoder E c with
      | End n =>
          (Ok tt,
           World (Fs.rmSync wd fs)
                 (log w2 ++ [Spawn c; Send (Response 200 "video/mp4" (Mp4Stream n)); Rm wd]))
      | Error diagnostic _ =>
          (Ok tt,
           World (Fs.rmSync wd fs)
                 (log w2 ++ [Spawn c; Send (json 500 [("error", JStr diagnostic)]); Rm wd]))
      | EndWithoutFile =>
          (Ok tt,
           World (delete out (files w2))
                 (log w2 ++ [Spawn c; Uncaught (cannotRead out None)]))
      end
  end.
Proof.
  intros Himg Hne. rewrite (renderer_valid req imgs _ Himg Hne).
  pose proof (workDir_nests (Renderer.dirname E) (Renderer.now E)) as Hwd.
  fold wd in Hwd.
  destruct (renderer_downloaded imgs fs) as (_ & Hrm & Hex).
  destruct (Renderer.download E wd 0 imgs [] _) as [[paths|e|] w2]; simpl in Hrm, Hex.
  - assert (∀ n, Fs.rmSync wd (<[out := File n]> (files w2)) = Fs.rmSync wd fs) as Hout.
    { intros n. rewrite rmSync_insert; [done|]. right. by apply below_pathJoin. }
    assert (∀ n, Fs.existsSync wd (<[out := File n]> (files w2)) = true) as Hex'.
    { intros n. apply existsSync_true. rewrite lookup_insert_ne by by apply pathJoin_ne.
      by apply existsSync_true. }
    cbv zeta. destruct (Renderer.encoder E _) as [n|d [n|]|]; simpl.
    + by rewrite Hout, <-!app_assoc.
    + rewrite renderer_catch. simpl. by rewrite Hex', Hout, <-!app_assoc.
    + rewrite renderer_catch. simpl. by rewrite Hex, Hrm, <-!app_assoc.
    + by rewrite <-!app_assoc.
  - rewrite renderer_catch. by rewrite Hex, Hrm, <-!app_assoc.
  - done.
Qed.

End renderer.

(** ** Event logs *)

Section logs.
Implicit Types l : list event.

Lemma sent_app l1 l2 :
  sent (l1 ++ l2) = match sent l2 with Some r => Some r | None => sent l1 end.
Proof.
  induction l1 as [|e l1 IH]; simpl; [by destruct (sent l2)|].
  rewrite IH. by destruct (sent l2).
Qed.

Lemma sent_last l r : sent (l ++ [Send r]) = Some r.
Proof. by rewrite sent_app. Qed.

Lemma sent_last_rm l r d : sent ((l ++ [Send r]) ++ [Rm d]) = Some r.
Proof. by rewrite !sent_app. Qed.

Lemma quiet_not_spawn l c : Forall quiet l → Spawn c ∉ l.
Proof.
  intros H Hin. rewrite Forall_forall in H. by apply H in Hin.
Qed.

Lemma quiet_prelude l : Forall quiet l → Forall prelude l.
Proof. intros H. eapply Forall_impl; [done|]. by intros []. Qed.

Lemma prelude_not_spawn l c : Forall prelude l → Spawn c ∉ l.
Proof.
  intros H Hin. rewrite Forall_forall in H. by apply H in Hin.
Qed.


Lemma prelude_not_sent l : Forall prelude l → sent l = None.
Proof.
  induction 1 as [|e l He _ IH]; [done|]. simpl. rewrite IH. by destruct e.
Qed.

Lemma prelude_no_send l : Forall prelude l → filter (λ e, isSend e = true) l = [].
Proof.
  induction 1 as [|e l He _ IH]; [done|].
  rewrite filter_cons_False; [done|]. by destruct e.
Qed.

Lemma renderer_prelude (E : Renderer.env) imgs fs :
  let wd := Renderer.workDir (Renderer.dirname E) (Renderer.now E) in
  Forall prelude
    (log (Renderer.download E wd 0 imgs [] (Renderer.createTempDir wd (World fs [])).2).2).
Proof.
  intros wd. destruct (renderer_downloaded E imgs fs) as ((l & Hl & Hquiet) & _).
  fold wd in Hl. rewrite Hl. apply Forall_app. split; [|by apply quiet_prelude].
  destruct (Fs.existsSync wd fs); by repeat constructor.
Qed.

End logs.

(** Membership in a short list, decided entry by entry. *)
Ltac among H :=
  repeat (apply elem_of_cons in H as [H|H]; [try discriminate H|]);
  try (by apply elem_of_nil in H).

(** ** Fail-fast download (index.js, lines 34-40) *)

(** C6. For an image-sequence request, a non-success HTTP response to the
    fetch of any image aborts the batch: the handler never spawns the
    encoder, and whatever it answers is an error.  It does answer, unless
    the body of an earlier image stalls, so that the fetch in question is
    never reached.  When that image is the first to fail, the error names it
    and no later image is fetched. *)
Theorem fetch_failure_aborts_batch
    (E : Renderer.env) (req : Renderer.request) (fs : gmap string node)
    (imgs : list string) (i : nat) (url : string) (content : stream) :
  Renderer.images req = Some imgs →
  imgs !! i = Some url →
  Renderer.remote E i url = Got false content →
  let w := after (Renderer.render E req) fs in
  (∀ c, Spawn c ∉ log w) ∧
  (∀ r, sent (log w) = Some r → ∃ message, r = json 500 [("error", JStr message)]) ∧
  ((∀ j u n, j < i → imgs !! j = Some u →
             Renderer.remote E j u ≠ Got true (Stalled n)) →
   ∃ message, sent (log w) = Some (json 500 [("error", JStr message)])) ∧
  ((∀ j u, j < i → imgs !! j = Some u →
           ∃ n, Renderer.remote E j u = Got true (Complete n)) →
   sent (log w) =
     Some (json 500 [("error",
             JStr ("Failed to fetch image " +:+ Js.numberToString (N.of_nat i)))]) ∧
   filter (λ e, isFetch e = true) (log w) = Fetch <$> take (S i) imgs).
Proof.
  intros Himg Hi Hr. unfold after.
  assert (imgs ≠ []) as Hne by (by intros ->).
  rewrite (renderer_run E _ _ _ Himg Hne).
  set (wd := Renderer.workDir (Renderer.dirname E) (Renderer.now E)).
  set (w1 := (Renderer.createTempDir wd (World fs [])).2).
  pose proof (renderer_prelude E imgs fs) as Hpre. cbv zeta in Hpre. fold wd w1 in Hpre.
  pose proof (createTempDir_log E fs) as Hlog1. fold wd w1 in Hlog1.
  destruct (download_aborts E wd imgs 0 [] w1 i url content Hi Hr) as [Hnot Hthrow].
  pose proof (download_first E wd imgs 0 [] w1 i url content Hi Hr) as Hfirst.
  destruct (Renderer.download E wd 0 imgs [] w1) as [[paths|e|] w2]; simpl in *.
  - by destruct (Hnot paths).
  - split_and!.
    + intros c [Hin|Hin]%elem_of_app; [by apply prelude_not_spawn in Hin|]. among Hin.
    + intros r. rewrite sent_app. simpl. intros [= <-]. eauto.
    + intros _. rewrite sent_app. simpl. eauto.
    + intros Hbefore. destruct Hfirst as (Hmsg & l & Hl & Hfetch); [done|].
      injection Hmsg as ->. split; [by rewrite sent_app|].
      rewrite Hl, Hlog1, !filter_app, Hfetch.
      destruct (Fs.existsSync wd fs); simpl; by rewrite app_nil_r.
  - split_and!.
    + intros c Hin. by apply prelude_not_spawn in Hin.
    + intros r. by rewrite prelude_not_sent.
    + intros Hstall. by destruct (Hthrow Hstall).
    + intros Hbefore. by destruct Hfirst as (Hmsg & _).
Qed.

Lemma fetch_failure_aborts_batch_witness :
  Renderer.remote Sample.missing 1 "b.jpg" = Got false (Complete 0) ∧
  (∀ c, Spawn c ∉ log (after (Renderer.render Sample.missing Sample.sequence) ∅)) ∧
  sent (log (after (Renderer.render Sample.missing Sample.sequence) ∅)) =
    Some (json 500 [("error", JStr "Failed to fetch image 1")]).
Proof.
  split; [done|].
  destruct (fetch_failure_aborts_batch Sample.missing Sample.sequence ∅
              Sample.images 1 "b.jpg" (Complete 0)) as (Hspawn & _ & _ & Hfirst); [done..|].
  split; [done|]. apply Hfirst.
  intros [|j] u Hj _; [by exists 2048%N|lia].
Defined.

(** ** The command composed by index.js (lines 45-68) *)

Section composer.

Lemma loop_addInput d p c :
  Ffmpeg.loop d (Ffmpeg.addInput p c) =
  Command (inputs c ++ [Input p (Some d)]) (filterSpec c) (mapped c)
          (vcodec c) (acodec c) (outputOpts c) (target c).
Proof.
  unfold Ffmpeg.loop, Ffmpeg.addInput. simpl.
  rewrite reverse_snoc. by rewrite reverse_cons, reverse_involutive.
Qed.

Lemma addInputs paths : ∀ c,
  foldl (λ command p, Ffmpeg.loop 3 (Ffmpeg.addInput p command)) c paths =
  Command (inputs c ++ ((λ p, Input p (Some 3%N)) <$> paths)) (filterSpec c) (mapped c)
          (vcodec c) (acodec c) (outputOpts c) (target c).
Proof.
  induction paths as [|p paths IH]; intros c; simpl.
  - rewrite app_nil_r. by destruct c.
  - rewrite IH, loop_addInput. simpl. by rewrite <-app_assoc.
Qed.

Lemma renderCommand_fields paths out :
  Renderer.renderCommand paths out =
  Command ((λ p, Input p (Some 3%N)) <$> paths)
          (Renderer.complexFilter paths) ["[v]"] (Some "libx264") None
          ["-pix_fmt yuv420p";
           "-t " +:+ Js.numberToString (N.of_nat (length paths) * 3);
           "-preset ultrafast"]
          (Some out).
Proof. unfold Renderer.renderCommand. by rewrite addInputs. Qed.

Lemma imap_index {A B} (f : nat → B) (l : list A) :
  imap (λ i _, f i) l = f <$> seq 0 (length l).
Proof.
  revert f. induction l as [|x l IH]; intros f; [done|].
  simpl. f_equal. rewrite <-fmap_S_seq, <-list_fmap_compose. apply (IH (f ∘ S)).
Qed.

(** Reading a numeral up to the closing bracket. *)
Lemma readLabels_digits ds : ∀ name s,
  allDigits ds = true →
  Filter.readLabels (Some name) (ds +:+ String "]" s) =
  let '(names, rest) := Filter.readLabels None s in ((name +:+ ds) :: names, rest).
Proof.
  induction ds as [|c ds IH]; intros name s Hds.
  - rewrite app_empty_l, app_empty_r. reflexivity.
  - simpl in Hds. apply andb_true_iff in Hds as [Hc Hds].
    rewrite app_cons. simpl.
    rewrite bool_decide_eq_false_2 by (intros ->; done).
    rewrite IH by done. by rewrite app_assoc'.
Qed.

Lemma readLabels_label i s :
  Filter.readLabels None (Renderer.label i +:+ s) =
  let '(names, rest) := Filter.readLabels None s in
  (("v" +:+ Js.numberToString (N.of_nat i)) :: names, rest).
Proof.
  unfold Renderer.label.
  change ("[v" +:+ Js.numberToString (N.of_nat i) +:+ "]")
    with (String "[" (String "v" (Js.numberToString (N.of_nat i) +:+ "]"))).
  rewrite !app_cons, app_assoc'. simpl.
  change ("]" +:+ s) with (String "]" s).
  by rewrite readLabels_digits by apply numberToString_digits.
Qed.

Lemma readLabels_join (ixs : list nat) s :
  Filter.readLabels None s = ([], s) →
  Filter.readLabels None (Js.join (Renderer.label <$> ixs) +:+ s) =
  ((λ i, "v" +:+ Js.numberToString (N.of_nat i)) <$> ixs, s).
Proof.
  intros Hs. induction ixs as [|i ixs IH]; [done|].
  rewrite !fmap_cons.
  change (Js.join (Renderer.label i :: (Renderer.label <$> ixs)))
    with (Renderer.label i +:+ Js.join (Renderer.label <$> ixs)).
  rewrite app_assoc', readLabels_label. by rewrite IH.
Qed.

Lemma single_not_concat chains :
  Forall (λ x, String.length x = 1) chains →
  filter (λ s, Filter.isConcat s = true) chains = [].
Proof.
  induction 1 as [|x chains Hx _ IH]; [done|].
  rewrite filter_cons_False; [done|].
  intros H%includes_length. rewrite Hx in H. simpl in H. lia.
Qed.

Lemma concatNode_isConcat paths : Filter.isConcat (Renderer.concatNode paths) = true.
Proof.
  unfold Filter.isConcat, Renderer.concatNode.
  change ("concat=n=" +:+ ?x) with ("concat=" +:+ "n=" +:+ x).
  apply includes_app.
Qed.

End composer.

(** ** When index.js spawns the encoder, and on what *)

Section spawning.
Variable E : Renderer.env.

Let wd := Renderer.workDir (Renderer.dirname E) (Renderer.now E).
Let out := Renderer.outputPath wd.

Lemma download_succeeds imgs : ∀ i acc w,
  (∀ j u, imgs !! j = Some u →
          ∃ n, Renderer.remote E (i + j) u = Got true (Complete n)) →
  (Renderer.download E wd i imgs acc w).1 =
  Ok (acc ++ imap (λ j _, Renderer.imgPath wd (i + j)) imgs).
Proof.
  induction imgs as [|u rest IH]; intros i acc w Hall.
  - simpl. by rewrite app_nil_r.
  - rewrite download_cons. destruct (Hall 0 u) as [n Hn]; [done|].
    rewrite Nat.add_0_r in Hn. rewrite Hn. simpl. rewrite IH.
    + rewrite <-app_assoc. simpl. rewrite Nat.add_0_r. do 3 f_equal.
      apply imap_ext. intros j x _. simpl. f_equal. lia.
    + intros j v Hj. destruct (Hall (S j) v) as [m Hm]; [done|].
      exists m. by replace (S i + j) with (i + S j) by lia.
Qed.

(** With every image fetched, the encoder is spawned on the command
    composed from the downloaded paths. *)
Lemma renderer_spawns req fs imgs :
  Renderer.images req = Some imgs → imgs ≠ [] →
  (∀ j u, imgs !! j = Some u →
          ∃ n, Renderer.remote E j u = Got true (Complete n)) →
  Spawn (Renderer.renderCommand (imap (λ j _, Renderer.imgPath wd j) imgs) out)
    ∈ log (after (Renderer.render E req) fs).
Proof.
  intros Himg Hne Hall. unfold after.
  rewrite (renderer_run E _ _ _ Himg Hne). fold wd. fold out.
  pose proof (download_succeeds imgs 0 []
                (Renderer.createTempDir wd (World fs [])).2 Hall) as Hok.
  destruct (Renderer.download E wd 0 imgs [] _) as [r w2]. simpl in Hok. subst r.
  cbv iota zeta. simpl app.
  destruct (Renderer.encoder E _) as [n|d partial|]; simpl;
    apply elem_of_app; right; apply list_elem_of_here.
Qed.

(** Conversely, whatever is spawned is that command. *)
Lemma renderer_spawned req fs c :
  Spawn c ∈ log (after (Renderer.render E req) fs) →
  ∃ imgs, Renderer.images req = Some imgs ∧
          c = Renderer.renderCommand (imap (λ j _, Renderer.imgPath wd j) imgs) out.
Proof.
  unfold after.
  destruct (Renderer.images req) as [[|url rest]|] eqn:Himg.
  - rewrite renderer_invalid by auto. simpl.
    by intros ?%list_elem_of_singleton.
  - rewrite (renderer_run E _ _ _ Himg) by done. fold wd. fold out.
    pose proof (renderer_prelude E (url :: rest) fs) as Hpre. cbv zeta in Hpre. fold wd in Hpre.
    pose proof (download_ok E wd (url :: rest) 0 []
                  (Renderer.createTempDir wd (World fs [])).2) as Hok.
    destruct (Renderer.download E wd 0 (url :: rest) [] _) as [[paths|e|] w2];
      simpl in Hpre, Hok.
    + specialize (Hok paths eq_refl). subst paths.
      intros Hin. exists (url :: rest). split; [done|]. cbv zeta in Hin.
      destruct (Renderer.encoder E _) as [n|d partial|]; simpl in Hin;
        (apply elem_of_app in Hin as [Hin|Hin]; [by apply prelude_not_spawn in Hin|]);
        (apply elem_of_cons in Hin as [Hin|Hin]; [by simplify_eq|among Hin]).
    + simpl. intros [Hin|Hin]%elem_of_app; [by apply prelude_not_spawn in Hin|].
      among Hin.
    + simpl. intros Hin. by apply prelude_not_spawn in Hin.
  - rewrite renderer_invalid by auto. simpl.
    by intros ?%list_elem_of_singleton.
Qed.

End spawning.

(** ** The filter graph of index.js (lines 52-57) *)

Section graph.

Lemma occurs_app c s t : occurs c (s +:+ t) = occurs c s || occurs c t.
Proof.
  induction s as [|d s IH]; [done|]. rewrite app_cons. simpl.
  by rewrite IH, orb_assoc.
Qed.

Lemma includes_inv t s : Js.includes t s = true → ∃ a b, s = a +:+ t +:+ b.
Proof.
  induction s as [|c s IH].
  - simpl. rewrite orb_false_r. intros H. destruct t; [|done]. by exists "", "".
  - rewrite includes_cons. intros [H|H]%orb_true_iff.
    + apply prefix_inv in H as [u H]. by exists "", u.
    + destruct (IH H) as (a & b & ->). by exists (String c a), b.
Qed.

(** A text that lacks a character of [t] does not include [t]. *)
Lemma includes_occurs t s c :
  occurs c t = true → occurs c s = false → Js.includes t s = false.
Proof.
  intros Ht Hs. destruct (Js.includes t s) eqn:H; [|done].
  apply includes_inv in H as (a & b & ->).
  rewrite !occurs_app, Ht in Hs. by rewrite orb_true_r in Hs.
Qed.

Lemma occurs_digits c s : allDigits s = true → isDigit c = false → occurs c s = false.
Proof.
  intros Hs Hc. induction s as [|d s IH]; [done|]. simpl in *.
  apply andb_true_iff in Hs as [Hd Hs]. rewrite (IH Hs), orb_false_r.
  apply bool_decide_eq_false. intros ->. congruence.
Qed.

Lemma occurs_labels c (ixs : list nat) :
  isDigit c = false → occurs c "[v]" = false →
  occurs c (Js.join (Renderer.label <$> ixs)) = false.
Proof.
  intros Hc Hv. induction ixs as [|i ixs IH]; [done|].
  rewrite fmap_cons.
  change (Js.join (Renderer.label i :: (Renderer.label <$> ixs)))
    with (Renderer.label i +:+ Js.join (Renderer.label <$> ixs)).
  rewrite occurs_app, IH, orb_false_r. unfold Renderer.label.
  rewrite !occurs_app, (occurs_digits c (Js.numberToString (N.of_nat i)))
    by (try done; apply numberToString_digits).
  simpl in *. by destruct (bool_decide (c = "["%char)), (bool_decide (c = "v"%char)),
    (bool_decide (c = "]"%char)).
Qed.

(** The concat node has none of the letters [s] and [p]: it is neither a
    scale nor a pad node. *)
Lemma concatNode_plain paths :
  Js.includes "scale=" (Renderer.concatNode paths) = false ∧
  Js.includes "pad=" (Renderer.concatNode paths) = false.
Proof.
  assert (∀ c, isDigit c = false → occurs c "[v]concat=n=:v=1:a=0[v]" = false →
               occurs c (Renderer.concatNode paths) = false) as Hnode.
  { intros c Hc Hv. unfold Renderer.concatNode.
    rewrite imap_index, !occurs_app, occurs_labels,
      (occurs_digits c (Js.numberToString (N.of_nat (length paths))));
      try done; try apply numberToString_digits.
    - simpl in *. repeat (apply orb_false_iff in Hv as [? Hv]).
      by repeat (apply orb_false_iff; split).
    - simpl in *. repeat (apply orb_false_iff in Hv as [? Hv]).
      by repeat (apply orb_false_iff; split). }
  split.
  - apply (includes_occurs _ _ "s"); [done|]. by apply Hnode.
  - apply (includes_occurs _ _ "p"); [done|]. by apply Hnode.
Qed.

Lemma scalePad_chain i :
  Js.includes "scale=" (Renderer.scalePad i) = true ∧
  Js.includes "pad=" (Renderer.scalePad i) = true.
Proof.
  unfold Renderer.scalePad. split.
  - rewrite <-!app_assoc'.
    change (":v]scale=1080:1920:force_original_aspect_ratio=decrease,pad=1080:1920:(ow-iw)/2:(oh-ih)/2[v")
      with (":v]" +:+ "scale=" +:+
            "1080:1920:force_original_aspect_ratio=decrease,pad=1080:1920:(ow-iw)/2:(oh-ih)/2[v").
    rewrite !app_assoc'. rewrite <-(app_assoc' "[" _ (":v]" +:+ _)).
    rewrite <-(app_assoc' _ ":v]"). apply includes_app.
  - rewrite <-!app_assoc'.
    change (":v]scale=1080:1920:force_original_aspect_ratio=decrease,pad=1080:1920:(ow-iw)/2:(oh-ih)/2[v")
      with (":v]scale=1080:1920:force_original_aspect_ratio=decrease," +:+ "pad=" +:+
            "1080:1920:(ow-iw)/2:(oh-ih)/2[v").
    rewrite !app_assoc'. rewrite <-(app_assoc' "[" _ (_ +:+ _)).
    rewrite <-(app_assoc' _ ":v]scale=1080:1920:force_original_aspect_ratio=decrease,").
    apply includes_app.
Qed.

Lemma length_spread s : length (Js.spread s) = String.length s.
Proof. induction s as [|c s IH]; simpl; by f_equal. Qed.

End graph.

(** C5 (index.js departs from it).  For an image-sequence request with
    N >= 1 images, the job that is spawned once every image is fetched
    declares the duration ["-t"] as N times the per-image duration and loops
    every input for it, and the last entry of its filter graph is the one
    concat node, with the labels v0 .. v(N-1) in input order and
    [concat=n=N].  But the N scale-and-pad chains that are to produce these
    streams are not in the graph: the array spread on line 54 is applied to
    the joined text of the chains, so that the entries before the concat node
    are the single characters of that text.  Each chain does scale and pad
    its input; no entry of the graph does. *)
Theorem scale_pad_chains_spread_into_characters (E : Renderer.env) (imgs : list string) :
  1 ≤ length imgs →
  let n := length imgs in
  let wd := Renderer.workDir (Renderer.dirname E) (Renderer.now E) in
  let imagePaths := imap (λ i _, Renderer.imgPath wd i) imgs in
  let job := Renderer.renderCommand imagePaths (Renderer.outputPath wd) in
  let chains := Renderer.scalePad <$> seq 0 n in
  (∀ req fs,
     Renderer.images req = Some imgs →
     (∀ j u, imgs !! j = Some u → ∃ m, Renderer.remote E j u = Got true (Complete m)) →
     Spawn job ∈ log (after (Renderer.render E req) fs)) ∧
  inputs job = (λ p, Input p (Some Spec.perImageDuration)) <$> imagePaths ∧
  outputOpts job =
    ["-pix_fmt yuv420p";
     "-t " +:+ Js.numberToString (N.of_nat n * Spec.perImageDuration);
     "-preset ultrafast"] ∧
  filter (λ s, Filter.isConcat s = true) (filterSpec job) = [Renderer.concatNode imagePaths] ∧
  Filter.labels (Renderer.concatNode imagePaths) =
    ((λ i, "v" +:+ Js.numberToString (N.of_nat i)) <$> seq 0 n,
     "concat=n=" +:+ Js.numberToString (N.of_nat n) +:+ ":v=1:a=0[v]") ∧
  (∃ chars, filterSpec job = chars ++ [Renderer.concatNode imagePaths] ∧
            Forall (λ x, String.length x = 1) chars ∧
            Js.join chars = Js.join chains ∧
            length chars = String.length (Js.join chains)) ∧
  (∀ chain, chain ∈ chains →
            Js.includes "scale=" chain = true ∧ Js.includes "pad=" chain = true) ∧
  (∀ node, node ∈ filterSpec job →
           Js.includes "scale=" node = false ∧ Js.includes "pad=" node = false).
Proof.
  intros Hn n wd imagePaths job chains.
  assert (length imagePaths = n) as Hlen by apply length_imap.
  assert (job = Command ((λ p, Input p (Some 3%N)) <$> imagePaths)
            (Renderer.complexFilter imagePaths) ["[v]"] (Some "libx264") None
            ["-pix_fmt yuv420p";
             "-t " +:+ Js.numberToString (N.of_nat n * 3);
             "-preset ultrafast"]
            (Some (Renderer.outputPath wd))) as Hjob.
  { unfold job. by rewrite renderCommand_fields, Hlen. }
  assert (Js.join (imap (λ i _, Renderer.scalePad i) imagePaths) = Js.join chains) as Hjoin
    by (by rewrite imap_index, Hlen).
  split_and!.
  - intros req fs Himg Hall.
    apply (renderer_spawns E req fs imgs); [done| |done].
    intros ->. simpl in Hn. lia.
  - by rewrite Hjob.
  - by rewrite Hjob.
  - rewrite Hjob. simpl. unfold Renderer.complexFilter. rewrite filter_app.
    rewrite single_not_concat by apply spread_single.
    rewrite filter_cons_True by apply concatNode_isConcat. done.
  - unfold Filter.labels, Renderer.concatNode. rewrite imap_index, Hlen.
    by rewrite readLabels_join.
  - exists (Js.spread (Js.join (imap (λ i _, Renderer.scalePad i) imagePaths))).
    split_and!; [by rewrite Hjob|apply spread_single|by rewrite join_spread|].
    by rewrite length_spread, Hjoin.
  - intros chain (i & -> & _)%list_elem_of_fmap. apply scalePad_chain.
  - intros node. rewrite Hjob. simpl. unfold Renderer.complexFilter.
    intros [Hin|Hin]%elem_of_app.
    + pose proof (spread_single (Js.join (imap (λ i _, Renderer.scalePad i) imagePaths)))
        as Hone.
      rewrite Forall_forall in Hone. specialize (Hone node Hin).
      split; (destruct (Js.includes _ node) eqn:H; [|done]);
        apply includes_length in H; rewrite Hone in H; simpl in H; lia.
    + apply list_elem_of_singleton in Hin as ->. apply concatNode_plain.
Qed.

Lemma scale_pad_chains_spread_into_characters_witness :
  1 ≤ length Sample.images ∧
  Spawn (Renderer.renderCommand
           (imap (λ i _, Renderer.imgPath "/srv/renderer/temp-1700000000000" i) Sample.images)
           "/srv/renderer/temp-1700000000000/output.mp4")
    ∈ log (after (Renderer.render Sample.renderer Sample.sequence) ∅) ∧
  ∀ node,
    node ∈ filterSpec (Renderer.renderCommand
             (imap (λ i _, Renderer.imgPath "/srv/renderer/temp-1700000000000" i) Sample.images)
             "/srv/renderer/temp-1700000000000/output.mp4") →
    Js.includes "scale=" node = false ∧ Js.includes "pad=" node = false.
Proof.
  assert (1 ≤ length Sample.images) as Hn by (simpl; lia).
  destruct (scale_pad_chains_spread_into_characters Sample.renderer Sample.images Hn)
    as (Hspawn & _ & _ & _ & _ & _ & _ & Hnone).
  split; [done|]. split; [|exact Hnone].
  apply Hspawn; [reflexivity|]. intros j u _. by exists 2048%N.
Defined.

(** ** The handler of server.js, path by path *)

Section server.
Variable E : Server.env.
Variable req : Server.request.

Let key := Server.outputFileName (Server.interpolate (Server.videoId req)).
Let out := Js.pathJoin (Server.TMP_DIR (Server.dirname E)) key.
Let bg := Server.bgVideoPath (Server.dirname E).
Let c := Server.renderCommand (Server.title req) bg out.

Lemma server_invalid w :
  ¬ Server.accepted req →
  Server.render E req w =
  (Ok tt,
   World (files w)
         (log w ++ [Send (json 400 [("success", JBool false);
                      ("error", JStr "Missing background video URL or videoId.")])])).
Proof.
  unfold Server.accepted, Server.render. intros H.
  destruct (Server.truthy (Server.backgroundVideoUrl req));
    destruct (Server.truthy (Server.videoId req)); simpl; try done.
  destruct H. done.
Qed.

Lemma server_valid w :
  Server.accepted req →
  Server.render E req w =
  (Ok tt,
   match Server.encoder E c with
   | Error diagnostic partial =>
       World (from_option (λ n, <[out := File n]>) id partial (files w))
             ((log w ++ [Spawn c]) ++
              [Send (json 500 [("success", JBool false);
                 ("error", JStr ("Video rendering failed: " +:+
                                 "FFmpeg failed: " +:+ diagnostic))])])
   | End n =>
       match Server.s3 E key with
       | Rejected cause =>
           World (<[out := File n]> (files w))
                 (((log w ++ [Spawn c]) ++ [Upload key out]) ++
                  [Send (json 500 [("success", JBool false);
                     ("error", JStr ("Video rendering failed: " +:+ cause))])])
       | Location url =>
           World (delete out (<[out := File n]> (files w)))
                 ((((log w ++ [Spawn c]) ++ [Upload key out]) ++ [Unlink out]) ++
                  [Send (json 200 [("success", JBool true); ("videoUrl", JStr url)])])
       end
   | EndWithoutFile =>
       World (delete out (files w))
             ((log w ++ [Spawn c]) ++
              [Send (json 500 [("success", JBool false);
                 ("error", JStr ("Video rendering failed: " +:+ cannotRead out None))])])
   end).
Proof.
  intros [H1 H2]. unfold Server.render. rewrite H1, H2. simpl.
  fold key. fold out. fold bg.
  unfold try, Server.renderPromise, try, run, mbind, handler_bind, emit. simpl.
  fold c.
  destruct (Server.encoder E c) as [n|d [n|]|]; simpl; [|done..|].
  - unfold Server.upload, mbind, handler_bind, getFiles, emit. simpl.
    unfold Fs.writeFile. rewrite lookup_insert_eq.
    destruct (Server.s3 E key) as [url|cause]; simpl; [|done].
    unfold Server.unlinkSync, mbind, handler_bind, getFiles. simpl.
    unfold Fs.existsSync.
    rewrite bool_decide_eq_true_2 by (rewrite lookup_insert_eq; eauto).
    reflexivity.
  - unfold Server.upload, mbind, handler_bind, getFiles, emit. simpl.
    by rewrite lookup_delete_eq.
Qed.

(** The output path ends in the output file name's own ending, whatever
    the [videoId]. *)
Lemma out_suffix : ∃ front, out = front +:+ "-final-video.mp4".
Proof. apply pathJoin_suffix; [done|simpl; lia]. Qed.

Lemma bg_nested : bg = Server.TMP_DIR (Server.dirname E) +:+ "/bg.mp4".
Proof. by apply TMP_DIR_nests. Qed.

Lemma key_not_bg : out ≠ bg.
Proof.
  destruct out_suffix as [front ->]. rewrite bg_nested. intros H.
  assert ((front +:+ "-final-vide") +:+ "o.mp4" =
          (Server.TMP_DIR (Server.dirname E) +:+ "/b") +:+ "g.mp4") as H'
    by (by rewrite !app_assoc').
  by apply app_inv_length in H'.
Qed.

End server.

(** ** What each handler answers *)

Section answers.


Lemma renderer_catch_sent (E : Renderer.env) error w :
  sent (log (Renderer.catch
               (Renderer.workDir (Renderer.dirname E) (Renderer.now E)) error w).2) =
  Some (json 500 [("error", JStr error)]).
Proof.
  rewrite renderer_catch. simpl.
  destruct (Fs.existsSync _ _); simpl; [apply sent_last_rm|apply sent_last].
Qed.

(** The answer of index.js once every image is on disk. *)
Lemma renderer_encoded (E : Renderer.env) req fs imgs :
  Renderer.images req = Some imgs → imgs ≠ [] →
  (∀ j u, imgs !! j = Some u →
          ∃ n, Renderer.remote E j u = Got true (Complete n)) →
  let wd := Renderer.workDir (Renderer.dirname E) (Renderer.now E) in
  let c := Renderer.renderCommand (imap (λ j _, Renderer.imgPath wd j) imgs)
                                  (Renderer.outputPath wd) in
  sent (log (after (Renderer.render E req) fs)) =
  match Renderer.encoder E c with
  | End n => Some (Response 200 "video/mp4" (Mp4Stream n))
  | Error diagnostic _ => Some (json 500 [("error", JStr diagnostic)])
  | EndWithoutFile => None
  end.
Proof.
  intros Himg Hne Hall wd c. unfold after.
  rewrite (renderer_run E _ _ _ Himg Hne). fold wd.
  pose proof (renderer_prelude E imgs fs) as Hpre. cbv zeta in Hpre. fold wd in Hpre.
  pose proof (download_succeeds E imgs 0 []
                (Renderer.createTempDir wd (World fs [])).2 Hall) as Hok.
  fold wd in Hok.
  destruct (Renderer.download E wd 0 imgs [] _) as [r w2]. simpl in Hok, Hpre. subst r.
  cbv iota zeta. simpl app. fold c.
  destruct (Renderer.encoder E c) as [n|d partial|]; simpl; rewrite sent_app; simpl;
    [done..|]. by apply prelude_not_sent.
Qed.




End answers.

(** ** Cleanup (server.js, lines 124-135) *)

(** C1 (the text-overlay handler departs from it).  When the encoder has
    completed and the upload is rejected, the handler answers with the
    failure envelope and removes nothing: the encoder's output file is still
    in the temp directory when the request is over. *)
Theorem publish_failure_leaves_output
    (E : Server.env) (req : Server.request) (fs : gmap string node)
    (n : N) (cause : string) :
  let key := Server.outputFileName (Server.interpolate (Server.videoId req)) in
  let out := Js.pathJoin (Server.TMP_DIR (Server.dirname E)) key in
  let c := Server.renderCommand (Server.title req)
                                (Server.bgVideoPath (Server.dirname E)) out in
  Server.accepted req →
  Server.encoder E c = End n →
  Server.s3 E key = Rejected cause →
  let w := after (Server.render E req) fs in
  sent (log w) =
    Some (json 500 [("success", JBool false);
                    ("error", JStr ("Video rendering failed: " +:+ cause))]) ∧
  files w !! out = Some (File n) ∧
  (∀ p, Unlink p ∉ log w) ∧ (∀ p, Rm p ∉ log w).
Proof.
  intros key out c Hacc Henc Hs3 w. unfold w, after.
  rewrite server_valid by done. fold key. fold out. fold c.
  rewrite Henc, Hs3. simpl.
  split; [done|]. split; [apply lookup_insert_eq|].
  split; intros p Hin;
    repeat (apply elem_of_cons in Hin as [Hin|Hin]; [done|]);
    by apply elem_of_nil in Hin.
Qed.

Lemma publish_failure_leaves_output_witness :
  Server.accepted Sample.overlay ∧
  files (after (Server.render Sample.denied Sample.overlay) ∅)
    !! "/srv/server/temp/v1-final-video.mp4" = Some (File 4096).
Proof.
  split; [done|].
  apply (publish_failure_leaves_output Sample.denied Sample.overlay ∅ 4096 "Access Denied");
    done.
Defined.

(** The same after an encoder error that left a partial output file. *)
Lemma encode_failure_leaves_partial
    (E : Server.env) (req : Server.request) (fs : gmap string node)
    (n : N) (diagnostic : string) :
  let key := Server.outputFileName (Server.interpolate (Server.videoId req)) in
  let out := Js.pathJoin (Server.TMP_DIR (Server.dirname E)) key in
  let c := Server.renderCommand (Server.title req)
                                (Server.bgVideoPath (Server.dirname E)) out in
  Server.accepted req →
  Server.encoder E c = Error diagnostic (Some n) →
  files (after (Server.render E req) fs) !! out = Some (File n).
Proof.
  intros key out c Hacc Henc. unfold after.
  rewrite server_valid by done. fold key. fold out. fold c.
  rewrite Henc. simpl. apply lookup_insert_eq.
Qed.

(** ** The background video (server.js, lines 76-87) *)

(** C7 (the text-overlay handler departs from it).  The handler never
    fetches [backgroundVideoUrl] and never writes the background file: no
    run issues a GET or stores a download, the entry at the background path
    is what it was before the request, and an accepted request spawns the
    encoder on that path all the same. *)
Theorem background_never_fetched
    (E : Server.env) (req : Server.request) (fs : gmap string node) :
  let bg := Server.bgVideoPath (Server.dirname E) in
  let w := after (Server.render E req) fs in
  (∀ url, Fetch url ∉ log w) ∧
  (∀ p, Store p ∉ log w) ∧
  files w !! bg = fs !! bg ∧
  (Server.accepted req →
   ∃ c, Spawn c ∈ log w ∧ inputs c = [Input bg None]).
Proof.
  intros bg w. unfold w, after.
  assert (∀ l : list event,
            Forall (λ e, match e with Fetch _ | Store _ => False | _ => True end) l →
            (∀ url, Fetch url ∉ l) ∧ (∀ p, Store p ∉ l)) as Hquiet.
  { intros l Hl. rewrite Forall_forall in Hl.
    split; intros x Hin; by apply Hl in Hin. }
  destruct (decide (Server.accepted req)) as [Hacc|Hrej].
  - rewrite server_valid by done.
    pose proof (key_not_bg E req) as Hne. fold bg in Hne.
    set (out := Js.pathJoin _ _) in *. set (c := Server.renderCommand _ _ _).
    destruct (Server.encoder E c) as [n|d partial|];
      [destruct (Server.s3 E _) as [url|cause]| |]; simpl.
    + rewrite lookup_delete_ne, lookup_insert_ne by done.
      split_and!; [apply Hquiet; by repeat constructor..|done|].
      intros _. exists c. split; [|done]. apply list_elem_of_here.
    + rewrite lookup_insert_ne by done.
      split_and!; [apply Hquiet; by repeat constructor..|done|].
      intros _. exists c. split; [|done]. apply list_elem_of_here.
    + split_and!; [apply Hquiet; by repeat constructor..| |].
      * destruct partial as [n|]; simpl; [by rewrite lookup_insert_ne|done].
      * intros _. exists c. split; [|done]. apply list_elem_of_here.
    + rewrite lookup_delete_ne by done.
      split_and!; [apply Hquiet; by repeat constructor..|done|].
      intros _. exists c. split; [|done]. apply list_elem_of_here.
  - rewrite server_invalid by done. simpl.
    split_and!; [apply Hquiet; by repeat constructor..|done|done].
Qed.

(** ** The encoder's report (index.js, lines 65-67; server.js, lines 94-102) *)

(** C4, as the handlers have it.  A request is answered with success only
    when the encoder has reported ['end'] and its output file is there, of
    whatever size, an empty file included: index.js then streams the file
    back, server.js uploads it and answers with the success envelope once the
    store accepts.  When the encoder reports ['error'] the answer is a
    failure carrying the process's diagnostic text and nothing is published,
    whatever file system the request started on.  When ['end'] comes without
    the output file, server.js answers with a failure and uploads nothing,
    and index.js sends no answer at all. *)
Theorem encoder_report_decides :
  (∀ (E : Server.env) (req : Server.request) (fs : gmap string node),
     Server.accepted req →
     let key := Server.outputFileName (Server.interpolate (Server.videoId req)) in
     let out := Js.pathJoin (Server.TMP_DIR (Server.dirname E)) key in
     let c := Server.renderCommand (Server.title req)
                                   (Server.bgVideoPath (Server.dirname E)) out in
     let w := after (Server.render E req) fs in
     match Server.encoder E c with
     | End n =>
         Upload key out ∈ log w ∧
         (∀ url, Server.s3 E key = Location url →
                 sent (log w) =
                   Some (json 200 [("success", JBool true); ("videoUrl", JStr url)]))
     | Error diagnostic _ =>
         sent (log w) =
           Some (json 500 [("success", JBool false);
                   ("error", JStr ("Video rendering failed: FFmpeg failed: "
                                   +:+ diagnostic))]) ∧
         (∀ k p, Upload k p ∉ log w)
     | EndWithoutFile =>
         (∃ cause,
            sent (log w) =
              Some (json 500 [("success", JBool false);
                      ("error", JStr ("Video rendering failed: " +:+ cause))])) ∧
         (∀ k p, Upload k p ∉ log w)
     end) ∧
  (∀ (E : Server.env) (req : Server.request) (fs : gmap string node) (url : string),
     sent (log (after (Server.render E req) fs)) =
       Some (json 200 [("success", JBool true); ("videoUrl", JStr url)]) →
     ∃ c n, Spawn c ∈ log (after (Server.render E req) fs) ∧ Server.encoder E c = End n) ∧
  (∀ (E : Renderer.env) (req : Renderer.request) (fs : gmap string node)
     (imgs : list string),
     Renderer.images req = Some imgs → imgs ≠ [] →
     (∀ j u, imgs !! j = Some u →
             ∃ n, Renderer.remote E j u = Got true (Complete n)) →
     let wd := Renderer.workDir (Renderer.dirname E) (Renderer.now E) in
     let c := Renderer.renderCommand (imap (λ j _, Renderer.imgPath wd j) imgs)
                                     (Renderer.outputPath wd) in
     let w := after (Renderer.render E req) fs in
     match Renderer.encoder E c with
     | End n => sent (log w) = Some (Response 200 "video/mp4" (Mp4Stream n))
     | Error diagnostic _ => sent (log w) = Some (json 500 [("error", JStr diagnostic)])
     | EndWithoutFile => sent (log w) = None
     end) ∧
  (∀ (E : Renderer.env) (req : Renderer.request) (fs : gmap string node) (n : N),
     sent (log (after (Renderer.render E req) fs)) =
       Some (Response 200 "video/mp4" (Mp4Stream n)) →
     ∃ c, Spawn c ∈ log (after (Renderer.render E req) fs) ∧ Renderer.encoder E c = End n).
Proof.
  split_and!.
  - intros E req fs Hacc key out c w. unfold w, after.
    rewrite server_valid by done. fold key. fold out. fold c.
    destruct (Server.encoder E c) as [n|d partial|].
    + split.
      * destruct (Server.s3 E key); simpl; apply list_elem_of_further, list_elem_of_here.
      * intros url ->. done.
    + simpl. split; [done|]. intros k p Hin. among Hin.
    + simpl. split; [by eexists|]. intros k p Hin. among Hin.
  - intros E req fs url. unfold after.
    destruct (decide (Server.accepted req)) as [Hacc|Hrej].
    + rewrite server_valid by done.
      set (c := Server.renderCommand _ _ _).
      destruct (Server.encoder E c) as [n|d partial|] eqn:Henc;
        [destruct (Server.s3 E _) as [url'|cause]| |]; simpl; try discriminate.
      intros _. exists c, n. split; [apply list_elem_of_here|done].
    + rewrite server_invalid by done. simpl. discriminate.
  - intros E req fs imgs Himg Hne Hall wd c w. unfold w.
    rewrite (renderer_encoded E req fs imgs Himg Hne Hall). fold wd. fold c.
    by destruct (Renderer.encoder E c).
  - intros E req fs n. unfold after.
    destruct (Renderer.images req) as [[|url rest]|] eqn:Himg;
      [by rewrite renderer_invalid by auto| |by rewrite renderer_invalid by auto].
    rewrite (renderer_run E _ _ _ Himg) by done.
    pose proof (renderer_prelude E (url :: rest) fs) as Hpre. cbv zeta in Hpre.
    destruct (Renderer.download E _ 0 (url :: rest) [] _) as [[paths|e|] w2];
      simpl in Hpre.
    + cbv zeta. set (c := Renderer.renderCommand _ _).
      destruct (Renderer.encoder E c) as [m|d partial|] eqn:Henc;
        simpl; rewrite sent_app; simpl.
      * intros [= <-]. exists c. split; [|done].
        apply elem_of_app. right. apply list_elem_of_here.
      * discriminate.
      * by rewrite prelude_not_sent.
    + simpl. rewrite sent_app. simpl. discriminate.
    + simpl. by rewrite prelude_not_sent.
Qed.

Lemma encoder_report_decides_witness :
  sent (log (after (Server.render Sample.broken Sample.overlay) Sample.stale)) =
    Some (json 500 [("success", JBool false);
            ("error", JStr "Video rendering failed: FFmpeg failed: Conversion failed!")]) ∧
  (∀ k p, Upload k p ∉ log (after (Server.render Sample.lost Sample.overlay) ∅)) ∧
  sent (log (after (Renderer.render Sample.failing Sample.sequence) ∅)) =
    Some (json 500 [("error", JStr "Conversion failed!")]) ∧
  sent (log (after (Renderer.render Sample.emptyHanded Sample.sequence) ∅)) = None.
Proof.
  split_and!.
  - apply (proj1 encoder_report_decides Sample.broken Sample.overlay Sample.stale). done.
  - apply (proj1 encoder_report_decides Sample.lost Sample.overlay ∅). done.
  - apply (proj1 (proj2 (proj2 encoder_report_decides))
             Sample.failing Sample.sequence ∅ Sample.images);
      [done|done|]. intros j u _. by exists 2048%N.
  - apply (proj1 (proj2 (proj2 encoder_report_decides))
             Sample.emptyHanded Sample.sequence ∅ Sample.images);
      [done|done|]. intros j u _. by exists 2048%N.
Defined.

(** C4 as stated fails: the encoder reports completion over an empty output
    file; the render promise resolves with that path and the handler answers
    with the success envelope. *)
Lemma empty_output_reported_as_success :
  (∃ w, Server.renderPromise Sample.truncated (Some "Hello")
          "/srv/server/temp/bg.mp4" "/srv/server/temp/v1-final-video.mp4" (World ∅ []) =
        (Ok "/srv/server/temp/v1-final-video.mp4", w) ∧
        files w !! "/srv/server/temp/v1-final-video.mp4" = Some (File 0)) ∧
  sent (log (after (Server.render Sample.truncated Sample.overlay) ∅)) =
    Some (json 200 [("success", JBool true);
                    ("videoUrl", JStr "https://bucket/v1-final-video.mp4")]).
Proof.
  split; [|by vm_compute].
  eexists. split; [reflexivity|]. by vm_compute.
Qed.

(** ** The response body (index.js, lines 25-27 and 80-84) *)



(** ** The shape of the composed job (index.js, lines 45-68; server.js, lines 85-103) *)

Section jobs.

(** Whatever server.js spawns is the command composed from the request. *)
Lemma server_spawned (E : Server.env) req fs c :
  Spawn c ∈ log (after (Server.render E req) fs) →
  c = Server.renderCommand (Server.title req)
        (Server.bgVideoPath (Server.dirname E))
        (Js.pathJoin (Server.TMP_DIR (Server.dirname E))
           (Server.outputFileName (Server.interpolate (Server.videoId req)))).
Proof.
  unfold after.
  destruct (decide (Server.accepted req)) as [Hacc|Hrej].
  - rewrite server_valid by done.
    destruct (Server.encoder E _) as [n|d partial|];
      [destruct (Server.s3 E _) as [url|cause]| |]; simpl; intros Hin;
      repeat (apply elem_of_cons in Hin as [Hin|Hin]; [by simplify_eq|]);
      by apply elem_of_nil in Hin.
  - rewrite server_invalid by done. simpl.
    by intros ?%list_elem_of_singleton.
Qed.

Lemma renderer_shape paths out :
  shape (Renderer.renderCommand paths out) =
  (length paths, replicate (length paths) (Some 3%N),
   Renderer.complexFilter paths, ["[v]"], Some "libx264", None,
   ["-pix_fmt yuv420p";
    "-t " +:+ Js.numberToString (N.of_nat (length paths) * 3);
    "-preset ultrafast"]).
Proof.
  rewrite renderCommand_fields. unfold shape. simpl.
  rewrite length_fmap, <-list_fmap_compose. repeat f_equal.
  induction paths as [|p paths IH]; simpl; by f_equal.
Qed.

Lemma complexFilter_length paths1 paths2 :
  length paths1 = length paths2 →
  Renderer.complexFilter paths1 = Renderer.complexFilter paths2.
Proof.
  intros H. unfold Renderer.complexFilter, Renderer.concatNode.
  by rewrite !imap_index, H.
Qed.

End jobs.

(** ** The caption in the filter string (server.js, lines 90-93) *)

Section caption.

Lemma escapeCaption_length s :
  String.length s ≤ String.length (Spec.escapeCaption s).
Proof.
  induction s as [|c s IH]; simpl; [done|].
  destruct (Spec.special c); simpl; lia.
Qed.

Lemma escapeCaption_fixed s :
  Spec.escapeCaption s = s ↔ Spec.hasSpecial s = false.
Proof.
  induction s as [|c s IH]; simpl; [done|].
  destruct (Spec.special c) eqn:Hc; simpl.
  - split; [|done]. intros H. apply (f_equal String.length) in H. simpl in H.
    pose proof (escapeCaption_length s). lia.
  - rewrite <-IH. split; [by intros [= ?]|by intros ->].
Qed.

End caption.

(** C2, as the handler has it.  For every accepted request the encoder is
    spawned, and the drawtext option it is given has the title between the
    single quotes exactly as it came (the word [undefined] when there is
    none), with no escaping.  That option is the one with the escaped caption
    exactly when the title contains no colon, quote or backslash. *)
Theorem caption_interpolated_verbatim
    (E : Server.env) (req : Server.request) (fs : gmap string node) :
  Server.accepted req →
  let caption := Server.interpolate (Server.title req) in
  (∃ c, Spawn c ∈ log (after (Server.render E req) fs)) ∧
  (∀ c, Spawn c ∈ log (after (Server.render E req) fs) →
     outputOpts c =
       ["-vf drawtext=text='" +:+ caption +:+
        "':fontsize=50:fontcolor=white:x=(w-text_w)/2:y=h-th-50:box=1:boxcolor=black@0.5:boxborderw=10";
        "-pix_fmt yuv420p"] ∧
     (outputOpts c =
        ["-vf drawtext=text='" +:+ Spec.escapeCaption caption +:+
         "':fontsize=50:fontcolor=white:x=(w-text_w)/2:y=h-th-50:box=1:boxcolor=black@0.5:boxborderw=10";
         "-pix_fmt yuv420p"]
      ↔ Spec.hasSpecial caption = false)).
Proof.
  intros Hacc caption. split.
  - unfold after. rewrite server_valid by done. eexists.
    destruct (Server.encoder E _) as [n|d partial|];
      [destruct (Server.s3 E _) as [url|cause]| |]; simpl; apply list_elem_of_here.
  - intros c ->%server_spawned. simpl. fold caption. split; [done|].
    rewrite <-escapeCaption_fixed. split.
    + intros [= H]. apply (inj (String.app _)) in H. by apply app_inv_tail' in H.
    + intros ->. done.
Qed.

Lemma caption_interpolated_verbatim_witness :
  Server.accepted Sample.quoted ∧
  ∀ c, Spawn c ∈ log (after (Server.render Sample.server Sample.quoted) ∅) →
       outputOpts c =
         ["-vf drawtext=text='it's 5:00':fontsize=50:fontcolor=white:x=(w-text_w)/2:y=h-th-50:box=1:boxcolor=black@0.5:boxborderw=10";
          "-pix_fmt yuv420p"].
Proof.
  assert (Server.accepted Sample.quoted) as Hacc by done.
  split; [done|]. intros c Hc.
  by destruct (proj2 (caption_interpolated_verbatim Sample.server Sample.quoted ∅ Hacc) c Hc).
Defined.

(** C2 as stated fails: a title with a quote and a colon reaches the
    encoder unescaped. *)
Lemma quoted_caption_not_escaped :
  Spec.hasSpecial "it's 5:00" = true ∧
  Spec.escapeCaption "it's 5:00" = "it\'s 5\:00" ∧
  ∃ c, Spawn c ∈ log (after (Server.render Sample.server Sample.quoted) ∅) ∧
       outputOpts c =
         ["-vf drawtext=text='it's 5:00':fontsize=50:fontcolor=white:x=(w-text_w)/2:y=h-th-50:box=1:boxcolor=black@0.5:boxborderw=10";
          "-pix_fmt yuv420p"] ∧
       outputOpts c ≠
         ["-vf drawtext=text='it\'s 5\:00':fontsize=50:fontcolor=white:x=(w-text_w)/2:y=h-th-50:box=1:boxcolor=black@0.5:boxborderw=10";
          "-pix_fmt yuv420p"].
Proof.
  split; [by vm_compute|]. split; [by vm_compute|].
  eexists. split; [vm_compute; apply list_elem_of_here|]. split; [reflexivity|].
  by vm_compute.
Qed.

(** C8, as the handlers have it.  Every job either handler spawns writes one
    [.mp4] target with the H.264 video codec and the [yuv420p] pixel format.
    The text-overlay job also sets the AAC audio codec; the image-sequence
    job sets no audio codec and maps only the video stream [[v]]. *)
Theorem output_shape :
  (∀ (E : Renderer.env) (req : Renderer.request) (fs : gmap string node) (c : command),
     Spawn c ∈ log (after (Renderer.render E req) fs) →
     vcodec c = Some "libx264" ∧
     "-pix_fmt yuv420p" ∈ outputOpts c ∧
     acodec c = None ∧ mapped c = ["[v]"] ∧
     ∃ stem, target c = Some (stem +:+ ".mp4")) ∧
  (∀ (E : Server.env) (req : Server.request) (fs : gmap string node) (c : command),
     Spawn c ∈ log (after (Server.render E req) fs) →
     vcodec c = Some "libx264" ∧
     "-pix_fmt yuv420p" ∈ outputOpts c ∧
     acodec c = Some "aac" ∧
     ∃ stem, target c = Some (stem +:+ ".mp4")).
Proof.
  split.
  - intros E req fs c (imgs & _ & ->)%renderer_spawned.
    rewrite renderCommand_fields. simpl. split_and!; try done.
    + apply list_elem_of_here.
    + exists (Renderer.workDir (Renderer.dirname E) (Renderer.now E) +:+ "/output").
      rewrite outputPath_nested by apply workDir_nests. by rewrite !app_assoc'.
  - intros E req fs c ->%server_spawned. simpl. split_and!; try done.
    + apply list_elem_of_further, list_elem_of_here.
    + destruct (out_suffix E req) as [front ->]. exists (front +:+ "-final-video").
      by rewrite !app_assoc'.
Qed.

Lemma output_shape_witness :
  acodec (Server.renderCommand (Some "Hello") "/srv/server/temp/bg.mp4"
                               "/srv/server/temp/v1-final-video.mp4") = Some "aac".
Proof.
  apply (proj2 output_shape Sample.server Sample.overlay ∅).
  vm_compute. apply list_elem_of_here.
Defined.

(** C8 as stated fails: the three-image request is rendered and streamed
    back, and the job that produced the file names no audio codec. *)
Lemma image_sequence_has_no_audio_codec :
  sent (log (after (Renderer.render Sample.renderer Sample.sequence) ∅)) =
    Some (Response 200 "video/mp4" (Mp4Stream 4096)) ∧
  ∃ c, Spawn c ∈ log (after (Renderer.render Sample.renderer Sample.sequence) ∅) ∧
       acodec c = None ∧ acodec c ≠ Some "aac".
Proof.
  split; [by vm_compute|].
  eexists. split; [|split].
  - vm_compute. do 7 apply list_elem_of_further. apply list_elem_of_here.
  - reflexivity.
  - done.
Qed.

(** C10.  The shape of the composed job (number of inputs, their loop
    counts, the filter graph, the mapped streams, the codecs and the output
    options) is a function of the image count, respectively of the title:
    it is the same for any two work directories, clocks, input and output
    paths, and so for any two runs of a handler on equal request bodies,
    whatever their environments and file systems. *)
Theorem job_shape_deterministic :
  (∀ paths1 paths2 out1 out2,
     length paths1 = length paths2 →
     shape (Renderer.renderCommand paths1 out1) = shape (Renderer.renderCommand paths2 out2)) ∧
  (∀ title bg1 bg2 out1 out2,
     shape (Server.renderCommand title bg1 out1) = shape (Server.renderCommand title bg2 out2)) ∧
  (∀ (E1 E2 : Renderer.env) req1 req2 fs1 fs2 imgs1 imgs2 c1 c2,
     Renderer.images req1 = Some imgs1 → Renderer.images req2 = Some imgs2 →
     length imgs1 = length imgs2 →
     Spawn c1 ∈ log (after (Renderer.render E1 req1) fs1) →
     Spawn c2 ∈ log (after (Renderer.render E2 req2) fs2) →
     shape c1 = shape c2) ∧
  (∀ (E1 E2 : Server.env) req1 req2 fs1 fs2 c1 c2,
     Server.title req1 = Server.title req2 →
     Spawn c1 ∈ log (after (Server.render E1 req1) fs1) →
     Spawn c2 ∈ log (after (Server.render E2 req2) fs2) →
     shape c1 = shape c2).
Proof.
  assert (∀ paths1 paths2 out1 out2,
     length paths1 = length paths2 →
     shape (Renderer.renderCommand paths1 out1) = shape (Renderer.renderCommand paths2 out2))
    as Hshape.
  { intros paths1 paths2 out1 out2 H.
    by rewrite !renderer_shape, H, (complexFilter_length paths1 paths2 H). }
  split_and!; [done|done|..].
  - intros E1 E2 req1 req2 fs1 fs2 imgs1 imgs2 c1 c2 H1 H2 Hlen
      (imgs1' & H1' & ->)%renderer_spawned (imgs2' & H2' & ->)%renderer_spawned.
    apply Hshape. rewrite !length_imap. congruence.
  - intros E1 E2 req1 req2 fs1 fs2 c1 c2 Ht ->%server_spawned ->%server_spawned.
    unfold shape. simpl. by rewrite Ht.
Qed.

Lemma job_shape_deterministic_witness :
  shape (Renderer.renderCommand
           (imap (λ i _, Renderer.imgPath "/opt/app/temp-1700000000123" i) Sample.images)
           "/opt/app/temp-1700000000123/output.mp4") =
  shape (Renderer.renderCommand
           (imap (λ i _, Renderer.imgPath "/srv/renderer/temp-1700000000000" i) Sample.images)
           "/srv/renderer/temp-1700000000000/output.mp4").
Proof.
  apply (proj1 (proj2 (proj2 job_shape_deterministic))
           Sample.elsewhere Sample.renderer Sample.sequence Sample.sequence
           Sample.stale ∅ Sample.images Sample.images); [done|done|done|..].
  - vm_compute. do 7 apply list_elem_of_further. apply list_elem_of_here.
  - vm_compute. do 7 apply list_elem_of_further. apply list_elem_of_here.
Defined.

(** ** Workspace paths (index.js, line 19; server.js, lines 47-71) *)

Section workspaces.
Variable dirname : string.




End workspaces.




(** * Further properties of the two handlers *)

(** ** index.js: what a request does to the file system *)



(** ** index.js: rejected requests and failed downloads *)

Section more_download.
Variable E : Renderer.env.
Variable wd : string.

(** The loop stops at the first image that is not fetched completely, with
    the message of that failure. *)
Lemma download_stops imgs : ∀ i acc w k url message,
  imgs !! k = Some url →
  (Renderer.remote E (i + k) url = Unreachable message ∨
   (∃ n, Renderer.remote E (i + k) url = Got true (Broken n message))) →
  (∀ j u, j < k → imgs !! j = Some u →
          ∃ n, Renderer.remote E (i + j) u = Got true (Complete n)) →
  let r := Renderer.download E wd i imgs acc w in
  r.1 = Throw message ∧
  ∃ l, log r.2 = log w ++ l ∧ filter (λ e, isFetch e = true) l = Fetch <$> take (S k) imgs.
Proof.
  induction imgs as [|u rest IH]; intros i acc w k url message Hk Hr Hbefore; [done|].
  rewrite download_cons.
  destruct k as [|k]; simpl in Hk.
  - injection Hk as ->. rewrite Nat.add_0_r in Hr.
    destruct Hr as [Hr|[n Hr]]; rewrite Hr; simpl.
    + split; [done|]. by exists [Fetch url].
    + split; [done|]. exists [Fetch url; Store (Renderer.imgPath wd i)].
      split; [by rewrite <-app_assoc|done].
  - destruct (Hbefore 0 u) as [n Hn]; [lia|done|].
    rewrite Nat.add_0_r in Hn. rewrite Hn.
    edestruct (IH (S i) (acc ++ [Renderer.imgPath wd i])
      (World (<[Renderer.imgPath wd i := File n]> (files w))
             ((log w ++ [Fetch u]) ++ [Store (Renderer.imgPath wd i)])) k url message)
      as (H1 & l & H2 & H3); [done|by replace (S i + k) with (i + S k) by lia| |].
    { intros j v Hj Hv. destruct (Hbefore (S j) v) as [m Hm]; [lia|done|].
      exists m. by replace (S i + j) with (i + S j) by lia. }
    simpl in *. split; [done|].
    exists (Fetch u :: Store (Renderer.imgPath wd i) :: l).
    split; [by rewrite H2, <-!app_assoc|].
    rewrite filter_cons_True by done. rewrite filter_cons_False by done.
    by rewrite H3.
Qed.


(** The loop at a body that stalls: what was fetched and stored up to
    there, the partial file, and no return. *)
Lemma download_stalled imgs : ∀ i acc w k url n,
  imgs !! k = Some url →
  Renderer.remote E (i + k) url = Got true (Stalled n) →
  (∀ j u, j < k → imgs !! j = Some u →
          ∃ m, Renderer.remote E (i + j) u = Got true (Complete m)) →
  let r := Renderer.download E wd i imgs acc w in
  r.1 = Never ∧
  log r.2 =
    log w ++ concat (imap (λ j u, [Fetch u; Store (Renderer.imgPath wd (i + j))])
                          (take (S k) imgs)) ∧
  files r.2 !! Renderer.imgPath wd (i + k) = Some (File n).
Proof.
  induction imgs as [|u rest IH]; intros i acc w k url n Hk Hr Hbefore; [done|].
  rewrite download_cons.
  destruct k as [|k]; simpl in Hk.
  - injection Hk as ->. rewrite Nat.add_0_r in Hr. rewrite Hr. simpl.
    rewrite Nat.add_0_r, lookup_insert_eq. by rewrite <-app_assoc.
  - destruct (Hbefore 0 u) as [m Hm]; [lia|done|].
    rewrite Nat.add_0_r in Hm. rewrite Hm.
    edestruct (IH (S i) (acc ++ [Renderer.imgPath wd i])
      (World (<[Renderer.imgPath wd i := File m]> (files w))
             ((log w ++ [Fetch u]) ++ [Store (Renderer.imgPath wd i)])) k url n)
      as (H1 & H2 & H3); [done|by replace (S i + k) with (i + S k) by lia| |].
    { intros j v Hj Hv. destruct (Hbefore (S j) v) as [m' Hm']; [lia|done|].
      exists m'. by replace (S i + j) with (i + S j) by lia. }
    simpl in *. split; [done|]. split.
    + rewrite H2, Nat.add_0_r, <-!app_assoc. simpl. do 3 f_equal.
      f_equal. apply imap_ext. intros j x _. simpl.
      by replace (i + S j) with (S (i + j)) by lia.
    + by replace (i + S k) with (S (i + k)) by lia.
Qed.

End more_download.

Section more_renderer.
Variable E : Renderer.env.
Variable req : Renderer.request.
Variable fs : gmap string node.

Let wd := Renderer.workDir (Renderer.dirname E) (Renderer.now E).

(** The log of a request with images: the directory is made unless it is
    there, then the loop runs. *)
Lemma renderer_log_start imgs :
  let w1 := (Renderer.createTempDir wd (World fs [])).2 in
  log w1 = (if Fs.existsSync wd fs then [] else [Mkdir wd]) ∧
  ∃ l, log (Renderer.download E wd 0 imgs [] w1).2 = log w1 ++ l ∧ Forall quiet l.
Proof.
  split; [|apply download_log].
  unfold Renderer.createTempDir, mbind, handler_bind, getFiles, when. simpl.
  by destruct (Fs.existsSync wd fs).
Qed.

(** Whatever a request with images is answered is a 200 or a 500. *)
Lemma renderer_valid_status imgs r :
  Renderer.images req = Some imgs → imgs ≠ [] →
  sent (log (after (Renderer.render E req) fs)) = Some r →
  status r = 200 ∨ status r = 500.
Proof.
  intros Himg Hne. unfold after. rewrite (renderer_run E _ _ _ Himg Hne).
  pose proof (renderer_prelude E imgs fs) as Hpre. cbv zeta in Hpre.
  destruct (Renderer.download E _ 0 imgs [] _) as [[paths|e|] w2]; simpl in Hpre.
  - cbv zeta. destruct (Renderer.encoder E _) as [n|d partial|];
      simpl; rewrite sent_app; simpl.
    + intros [= <-]. auto.
    + intros [= <-]. auto.
    + by rewrite prelude_not_sent.
  - simpl. rewrite sent_app. simpl. intros [= <-]. auto.
  - simpl. by rewrite prelude_not_sent.
Qed.

End more_renderer.

(** X2.  index.js answers 400 exactly when the body has no [images] or an
    empty list; it then sends [{ error: 'No images provided' }] and does
    nothing else: no directory, no fetch, no encoder, the file system as it
    was. *)
Theorem renderer_rejects_without_images
    (E : Renderer.env) (req : Renderer.request) (fs : gmap string node) :
  let w := after (Renderer.render E req) fs in
  ((∃ r, sent (log w) = Some r ∧ status r = 400) ↔
   (Renderer.images req = None ∨ Renderer.images req = Some [])) ∧
  (Renderer.images req = None ∨ Renderer.images req = Some [] →
   log w = [Send (json 400 [("error", JStr "No images provided")])] ∧ files w = fs).
Proof.
  intros w.
  assert (Renderer.images req = None ∨ Renderer.images req = Some [] →
          log w = [Send (json 400 [("error", JStr "No images provided")])] ∧ files w = fs)
    as Hrej.
  { intros H. unfold w, after. by rewrite renderer_invalid. }
  split; [|done]. split.
  - intros (r & Hr & Hstatus).
    destruct (Renderer.images req) as [[|url rest]|] eqn:Himg; auto.
    destruct (renderer_valid_status E req fs (url :: rest) r Himg) as [Hs|Hs];
      [done|done|..]; rewrite Hs in Hstatus; discriminate.
  - intros H. destruct (Hrej H) as [Hlog _]. rewrite Hlog. simpl. eauto.
Qed.

Lemma renderer_rejects_without_images_witness :
  log (after (Renderer.render Sample.renderer Sample.noImages) Sample.stale) =
    [Send (json 400 [("error", JStr "No images provided")])] ∧
  files (after (Renderer.render Sample.renderer Sample.noImages) Sample.stale) = Sample.stale.
Proof.
  apply (proj2 (renderer_rejects_without_images Sample.renderer Sample.noImages Sample.stale)).
  by right.
Defined.

(** X3.  When every earlier image was downloaded and the fetch of an image
    rejects (the host cannot be reached), or the pipeline that writes its
    body fails with an error (the body stream or the write stream emits
    ['error']), index.js answers 500 with the cause as message, fetches no
    later image and never spawns the encoder.  (A body that stops coming
    without an error is the other case: see X17.) *)
Theorem download_failure_aborts
    (E : Renderer.env) (req : Renderer.request) (fs : gmap string node)
    (imgs : list string) (k : nat) (url cause : string) :
  Renderer.images req = Some imgs →
  imgs !! k = Some url →
  (Renderer.remote E k url = Unreachable cause ∨
   (∃ n, Renderer.remote E k url = Got true (Broken n cause))) →
  (∀ j u, j < k → imgs !! j = Some u →
          ∃ n, Renderer.remote E j u = Got true (Complete n)) →
  let w := after (Renderer.render E req) fs in
  sent (log w) = Some (json 500 [("error", JStr cause)]) ∧
  (∀ c, Spawn c ∉ log w) ∧
  filter (λ e, isFetch e = true) (log w) = Fetch <$> take (S k) imgs.
Proof.
  intros Himg Hk Hr Hbefore w. unfold w, after.
  assert (imgs ≠ []) as Hne by (by intros ->).
  rewrite (renderer_valid E _ _ _ Himg Hne).
  set (wd := Renderer.workDir (Renderer.dirname E) (Renderer.now E)).
  destruct (renderer_log_start E fs imgs) as (Hlog1 & l0 & Hl0 & Hquiet). fold wd in Hlog1, Hl0.
  set (w1 := (Renderer.createTempDir wd (World fs [])).2) in *.
  destruct (download_stops E wd imgs 0 [] w1 k url cause Hk Hr Hbefore)
    as (Hthrow & l & Hl & Hfetch).
  destruct (Renderer.download E wd 0 imgs [] w1) as [r w2]. simpl in *. subst r.
  cbv iota. split; [apply renderer_catch_sent|].
  assert (l0 = l) as -> by (rewrite Hl in Hl0; by apply app_inv_head in Hl0).
  unfold wd. rewrite (renderer_catch E). fold wd.
  assert (∀ c, Spawn c ∉ log w2) as Hspawn.
  { intros c. rewrite Hl, Hlog1. intros [H|H]%elem_of_app.
    - destruct (Fs.existsSync wd fs).
      + by apply elem_of_nil in H.
      + by apply list_elem_of_singleton in H.
    - by apply quiet_not_spawn in H. }
  assert (filter (λ e, isFetch e = true) (log w2) = Fetch <$> take (S k) imgs) as Hf.
  { rewrite Hl, filter_app, Hfetch, Hlog1. by destruct (Fs.existsSync wd fs). }
  split.
  - intros c Hin.
    destruct (Fs.existsSync wd (files w2)); simpl in Hin;
      repeat (apply elem_of_app in Hin as [Hin|Hin]);
      try (by apply list_elem_of_singleton in Hin); by apply (Hspawn c).
  - destruct (Fs.existsSync wd (files w2)); simpl; rewrite !filter_app, Hf; simpl;
      by rewrite ?app_nil_r.
Qed.

Lemma download_failure_aborts_witness :
  Renderer.remote Sample.offline 0 "a.jpg" = Unreachable "getaddrinfo ENOTFOUND x" ∧
  sent (log (after (Renderer.render Sample.offline Sample.sequence) ∅)) =
    Some (json 500 [("error", JStr "getaddrinfo ENOTFOUND x")]).
Proof.
  split; [done|].
  apply (download_failure_aborts Sample.offline Sample.sequence ∅ Sample.images 0 "a.jpg");
    [done|done|by left|].
  intros j u Hj. lia.
Defined.

(** X17.  The download loop has no timeout.  When every earlier image was
    downloaded and the body of an image stops coming without the stream
    ending or failing, the handler waits for ever: the request gets no
    answer, no later image is fetched, no encoder runs and nothing is cleaned
    up, so that the work directory stays with the images downloaded so far
    and the partial file. *)
Theorem stalled_download_is_never_answered
    (E : Renderer.env) (req : Renderer.request) (fs : gmap string node)
    (imgs : list string) (k : nat) (url : string) (n : N) :
  Renderer.images req = Some imgs →
  imgs !! k = Some url →
  Renderer.remote E k url = Got true (Stalled n) →
  (∀ j u, j < k → imgs !! j = Some u →
          ∃ m, Renderer.remote E j u = Got true (Complete m)) →
  let wd := Renderer.workDir (Renderer.dirname E) (Renderer.now E) in
  let w := after (Renderer.render E req) fs in
  (Renderer.render E req (World fs [])).1 = Never ∧
  log w =
    (if Fs.existsSync wd fs then [] else [Mkdir wd]) ++
    concat (imap (λ i u, [Fetch u; Store (Renderer.imgPath wd i)]) (take (S k) imgs)) ∧
  sent (log w) = None ∧
  is_Some (files w !! wd) ∧
  files w !! Renderer.imgPath wd k = Some (File n).
Proof.
  intros Himg Hk Hr Hbefore wd w. unfold w, after.
  assert (imgs ≠ []) as Hne by (by intros ->).
  rewrite (renderer_run E _ _ _ Himg Hne). fold wd.
  pose proof (renderer_prelude E imgs fs) as Hpre. cbv zeta in Hpre. fold wd in Hpre.
  destruct (renderer_downloaded E imgs fs) as (_ & _ & Hex). fold wd in Hex.
  pose proof (createTempDir_log E fs) as Hlog1. fold wd in Hlog1.
  set (w1 := (Renderer.createTempDir wd (World fs [])).2) in *.
  destruct (download_stalled E wd imgs 0 [] w1 k url n Hk Hr Hbefore)
    as (Hnever & Hlog & Hfile).
  destruct (Renderer.download E wd 0 imgs [] w1) as [r w2]. simpl in *. subst r.
  split_and!; [done| |by apply prelude_not_sent|by apply existsSync_true|done].
  simpl. by rewrite Hlog, Hlog1.
Qed.

Lemma stalled_download_is_never_answered_witness :
  log (after (Renderer.render Sample.stalling Sample.sequence) ∅) =
    [Mkdir "/srv/renderer/temp-1700000000000";
     Fetch "a.jpg"; Store "/srv/renderer/temp-1700000000000/image-0.jpg";
     Fetch "b.jpg"; Store "/srv/renderer/temp-1700000000000/image-1.jpg"] ∧
  files (after (Renderer.render Sample.stalling Sample.sequence) ∅)
    !! "/srv/renderer/temp-1700000000000/image-1.jpg" = Some (File 1000).
Proof.
  assert (∀ j u, j < 1 → Sample.images !! j = Some u →
                 ∃ m, Renderer.remote Sample.stalling j u = Got true (Complete m)) as Hbefore.
  { intros [|j] u Hj _; [by exists 2048%N|lia]. }
  destruct (stalled_download_is_never_answered Sample.stalling Sample.sequence ∅
              Sample.images 1 "b.jpg" 1000 eq_refl eq_refl eq_refl Hbefore)
    as (_ & Hlog & _ & _ & Hfile).
  split; [|exact Hfile]. vm_compute in Hlog. vm_compute. exact Hlog.
Defined.

(** ** index.js: the run that succeeds *)



(** ** index.js: the files of one request *)

Section image_files.
Variable E : Renderer.env.
Variable wd : string.

Lemma imgPath_inj i j : Renderer.imgPath wd i = Renderer.imgPath wd j → i = j.
Proof.
  unfold Renderer.imgPath. rewrite !pathJoin_plain by apply plain_image. intros H.
  do 2 apply (inj (String.app _)) in H.
  apply app_inv_tail', numberToString_inj in H. lia.
Qed.

Lemma outputPath_not_image i : Renderer.outputPath wd ≠ Renderer.imgPath wd i.
Proof.
  unfold Renderer.outputPath, Renderer.imgPath.
  rewrite (pathJoin_plain wd "output.mp4") by done.
  rewrite pathJoin_plain by apply plain_image. intros H.
  apply (inj (String.app _)) in H.
  change ("image-" +:+ ?x) with (String "i" ("mage-" +:+ x)) in H.
  discriminate H.
Qed.

Lemma download_succeeds_at imgs : ∀ i acc w,
  (∀ j u, imgs !! j = Some u →
          ∃ n, Renderer.remote E (i + j) u = Got true (Complete n)) →
  (Renderer.download E wd i imgs acc w).1 =
  Ok (acc ++ imap (λ j _, Renderer.imgPath wd (i + j)) imgs).
Proof.
  induction imgs as [|u rest IH]; intros i acc w Hall.
  - simpl. by rewrite app_nil_r.
  - rewrite download_cons. destruct (Hall 0 u) as [n Hn]; [done|].
    rewrite Nat.add_0_r in Hn. rewrite Hn. simpl. rewrite IH.
    + rewrite <-app_assoc. simpl. rewrite Nat.add_0_r. do 3 f_equal.
      apply imap_ext. intros j x _. simpl. f_equal. lia.
    + intros j v Hj. destruct (Hall (S j) v) as [m Hm]; [done|].
      exists m. by replace (S i + j) with (i + S j) by lia.
Qed.

(** The loop writes image paths only, whatever its outcome. *)
Lemma download_frame imgs : ∀ i acc w p,
  (∀ j, j < length imgs → p ≠ Renderer.imgPath wd (i + j)) →
  files (Renderer.download E wd i imgs acc w).2 !! p = files w !! p.
Proof.
  induction imgs as [|u rest IH]; intros i acc w p Hp; [done|].
  rewrite download_cons.
  assert (p ≠ Renderer.imgPath wd i) as Hne.
  { specialize (Hp 0). rewrite Nat.add_0_r in Hp. apply Hp. simpl. lia. }
  destruct (Renderer.remote E i u) as [cause|[] [n|n cause|n]]; simpl; try done.
  - rewrite IH; [by apply lookup_insert_ne|].
    intros j Hj. replace (S i + j) with (i + S j) by lia. apply Hp. simpl. lia.
  - by apply lookup_insert_ne.
  - by apply lookup_insert_ne.
Qed.

Lemma download_stored imgs : ∀ i acc w k u n,
  (∀ j v, imgs !! j = Some v →
          ∃ m, Renderer.remote E (i + j) v = Got true (Complete m)) →
  imgs !! k = Some u →
  Renderer.remote E (i + k) u = Got true (Complete n) →
  files (Renderer.download E wd i imgs acc w).2 !! Renderer.imgPath wd (i + k)
  = Some (File n).
Proof.
  induction imgs as [|v rest IH]; intros i acc w k u n Hall Hk Hr; [done|].
  rewrite download_cons. destruct (Hall 0 v) as [m Hm]; [done|].
  rewrite Nat.add_0_r in Hm. rewrite Hm.
  destruct k as [|k]; simpl in Hk.
  - injection Hk as ->. rewrite Nat.add_0_r in Hr. rewrite Hr in Hm. injection Hm as <-.
    rewrite Nat.add_0_r, download_frame; [apply lookup_insert_eq|].
    intros j _ H%imgPath_inj. lia.
  - replace (i + S k) with (S i + k) by lia. eapply IH; [|done|].
    + intros j x Hj. destruct (Hall (S j) x) as [m' Hm']; [done|].
      exists m'. by replace (S i + j) with (i + S j) by lia.
    + by replace (S i + k) with (i + S k) by lia.
Qed.

End image_files.

(** ** When the download loop completes *)

Section gating.
Variable E : Renderer.env.
Variable wd : string.

(** The loop completes exactly when every image is fetched completely. *)
Lemma download_completes_iff imgs : ∀ i acc w,
  (∃ paths, (Renderer.download E wd i imgs acc w).1 = Ok paths) ↔
  (∀ j u, imgs !! j = Some u →
          ∃ n, Renderer.remote E (i + j) u = Got true (Complete n)).
Proof.
  induction imgs as [|u rest IH]; intros i acc w.
  - split; [by intros _ j v ?|]. intros _. by eexists.
  - split.
    + intros [paths Hok] j v Hj. rewrite download_cons in Hok.
      destruct (Renderer.remote E i u) as [cause|[] [n|n cause|n]] eqn:Hr;
        simpl in Hok; try discriminate.
      destruct j as [|j]; simpl in Hj.
      * injection Hj as <-. rewrite Nat.add_0_r. eauto.
      * replace (i + S j) with (S i + j) by lia.
        eapply IH; [by eexists|done].
    + intros Hall. rewrite download_succeeds_at by done. by eexists.
Qed.

End gating.

(** ** Both handlers: one answer per request *)

Section answering.

(** The loop never settles exactly when a body stalls after every earlier
    image was downloaded. *)
Lemma download_never (E : Renderer.env) wd imgs : ∀ i acc w,
  (Renderer.download E wd i imgs acc w).1 = Never ↔
  ∃ k u n, imgs !! k = Some u ∧ Renderer.remote E (i + k) u = Got true (Stalled n) ∧
           ∀ j v, j < k → imgs !! j = Some v →
                  ∃ m, Renderer.remote E (i + j) v = Got true (Complete m).
Proof.
  induction imgs as [|u rest IH]; intros i acc w.
  - split; [done|]. by intros (k & v & n & Hk & _).
  - rewrite download_cons.
    assert (∀ f, Renderer.remote E i u = f →
                 (∀ n, f ≠ Got true (Stalled n)) → (∀ m, f ≠ Got true (Complete m)) →
                 ¬ ∃ k v n, (u :: rest) !! k = Some v ∧
                     Renderer.remote E (i + k) v = Got true (Stalled n) ∧
                     ∀ j x, j < k → (u :: rest) !! j = Some x →
                            ∃ m, Renderer.remote E (i + j) x = Got true (Complete m)) as Hno.
    { intros f Hf Hstall Hcomplete (k & v & n & Hk & Hv & Hbefore).
      destruct k as [|k]; simpl in Hk.
      - injection Hk as <-. rewrite Nat.add_0_r, Hf in Hv. by apply Hstall in Hv.
      - destruct (Hbefore 0 u) as [m Hm]; [lia|done|].
        rewrite Nat.add_0_r, Hf in Hm. by apply Hcomplete in Hm. }
    destruct (Renderer.remote E i u) as [cause|[] [n|n cause|n]] eqn:Hu; simpl;
      try (split; [done|]; intros H; exfalso; revert H; by apply (Hno _ eq_refl)).
    + rewrite IH. split.
      * intros (k & v & m & Hk & Hv & Hbefore). exists (S k), v, m.
        split; [done|]. split; [by replace (i + S k) with (S i + k) by lia|].
        intros [|j] x Hj Hx; simpl in Hx.
        -- injection Hx as <-. rewrite Nat.add_0_r. eauto.
        -- replace (i + S j) with (S i + j) by lia. apply Hbefore; [lia|done].
      * intros (k & v & m & Hk & Hv & Hbefore).
        destruct k as [|k]; simpl in Hk.
        -- injection Hk as <-. rewrite Nat.add_0_r in Hv. congruence.
        -- exists k, v, m. split; [done|].
           split; [by replace (S i + k) with (i + S k) by lia|].
           intros j x Hj Hx. replace (S i + j) with (i + S j) by lia.
           apply (Hbefore (S j)); [lia|done].
    + split; [|done]. intros _. exists 0, u, n. rewrite Nat.add_0_r.
      split; [done|]. split; [done|]. intros j x Hj. lia.
Qed.

End answering.

(** X5.  No request gets more than one response from its handler, on any
    path.  Taking every fetch to resolve or reject, the encoder to report
    ['end'] or ['error'] and the object store to answer: server.js answers
    every request, once, and index.js leaves a request unanswered in exactly
    two cases: the body of an image stalls after every earlier image was
    downloaded, or every image was downloaded and the encoder ends without
    its output file.  The handler has no timeout for the one and looks for
    no file in the other. *)
Theorem one_response_per_request :
  (∀ (E : Renderer.env) (req : Renderer.request) (fs : gmap string node),
     length (filter (λ e, isSend e = true) (log (after (Renderer.render E req) fs))) ≤ 1) ∧
  (∀ (E : Renderer.env) (req : Renderer.request) (fs : gmap string node),
     let wd := Renderer.workDir (Renderer.dirname E) (Renderer.now E) in
     sent (log (after (Renderer.render E req) fs)) = None ↔
     ∃ imgs, Renderer.images req = Some imgs ∧
       ((∃ k u n, imgs !! k = Some u ∧ Renderer.remote E k u = Got true (Stalled n) ∧
                  ∀ j v, j < k → imgs !! j = Some v →
                         ∃ m, Renderer.remote E j v = Got true (Complete m)) ∨
        (imgs ≠ [] ∧
         (∀ j v, imgs !! j = Some v → ∃ m, Renderer.remote E j v = Got true (Complete m)) ∧
         Renderer.encoder E
           (Renderer.renderCommand (imap (λ i _, Renderer.imgPath wd i) imgs)
                                   (Renderer.outputPath wd)) = EndWithoutFile))) ∧
  (∀ (E : Server.env) (req : Server.request) (fs : gmap string node),
     length (filter (λ e, isSend e = true) (log (after (Server.render E req) fs))) = 1).
Proof.
  split_and!.
  - intros E req fs. unfold after.
    destruct (Renderer.images req) as [[|url rest]|] eqn:Himg;
      [by rewrite renderer_invalid by auto| |by rewrite renderer_invalid by auto].
    rewrite (renderer_run E _ _ _ Himg) by done.
    pose proof (renderer_prelude E (url :: rest) fs) as Hpre. cbv zeta in Hpre.
    destruct (Renderer.download E _ 0 (url :: rest) [] _) as [[paths|e|] w2];
      simpl in Hpre.
    + cbv zeta. destruct (Renderer.encoder E _) as [n|d partial|]; simpl;
        rewrite filter_app, prelude_no_send by done; simpl; lia.
    + simpl. rewrite filter_app, prelude_no_send by done. simpl. lia.
    + simpl. rewrite prelude_no_send by done. simpl. lia.
  - intros E req fs wd. unfold after.
    destruct (Renderer.images req) as [[|url rest]|] eqn:Himg.
    + rewrite renderer_invalid by auto. simpl. split; [done|].
      intros (imgs & [= <-] & [(k & u & n & Hk & _)|(Hne & _)]); done.
    + rewrite (renderer_run E _ _ _ Himg) by done. fold wd.
      pose proof (renderer_prelude E (url :: rest) fs) as Hpre. cbv zeta in Hpre.
      fold wd in Hpre.
      set (w1 := (Renderer.createTempDir wd (World fs [])).2) in *.
      pose proof (download_never E wd (url :: rest) 0 [] w1) as Hnever.
      pose proof (download_completes_iff E wd (url :: rest) 0 [] w1) as Hdone.
      pose proof (download_ok E wd (url :: rest) 0 [] w1) as Hok.
      destruct (Renderer.download E wd 0 (url :: rest) [] w1) as [[paths|e|] w2];
        simpl in Hpre, Hnever, Hdone.
      * assert (paths = imap (λ i _, Renderer.imgPath wd i) (url :: rest)) as ->
          by (by rewrite (Hok paths eq_refl)).
        assert (∀ j v, (url :: rest) !! j = Some v →
                       ∃ m, Renderer.remote E j v = Got true (Complete m)) as Hall
          by (apply Hdone; by eexists).
        assert (¬ ∃ k u n, (url :: rest) !! k = Some u ∧
                  Renderer.remote E k u = Got true (Stalled n) ∧
                  ∀ j v, j < k → (url :: rest) !! j = Some v →
                         ∃ m, Renderer.remote E j v = Got true (Complete m)) as Hnostall
          by (intros H; by apply Hnever in H).
        cbv zeta.
        destruct (Renderer.encoder E _) as [n|d partial|] eqn:Henc; simpl;
          rewrite sent_app; simpl.
        -- split; [done|]. intros (imgs & [= <-] & [H|(_ & _ & H)]); [done|].
           rewrite Henc in H. discriminate.
        -- split; [done|]. intros (imgs & [= <-] & [H|(_ & _ & H)]); [done|].
           rewrite Henc in H. discriminate.
        -- rewrite prelude_not_sent by done. split; [|done].
           intros _. exists (url :: rest). split; [done|]. right. done.
      * simpl. rewrite sent_app. simpl. split; [done|].
        intros (imgs & [= <-] & [H|(_ & Hall & _)]).
        -- apply Hnever in H. discriminate.
        -- apply Hdone in Hall as [paths ?]. discriminate.
      * simpl. rewrite prelude_not_sent by done. split; [|done].
        intros _. exists (url :: rest). split; [done|]. left. by apply Hnever.
    + rewrite renderer_invalid by auto. simpl. split; [done|]. by intros (imgs & ? & _).
  - intros E req fs. unfold after.
    destruct (decide (Server.accepted req)) as [Hacc|Hrej].
    + rewrite server_valid by done.
      by destruct (Server.encoder E _) as [n|d partial|];
        [destruct (Server.s3 E _) as [url|cause]| |].
    + by rewrite server_invalid.
Qed.



(** X6.  When every image is served, the download loop of index.js
    returns the image paths in request order, each path then holds the
    bytes of its own image (no image overwrites another), and no other path
    of the file system has changed: this is what the encoder finds. *)
Theorem download_stores_every_image
    (E : Renderer.env) (wd : string) (imgs : list string) (w : world) :
  (∀ j u, imgs !! j = Some u → ∃ m, Renderer.remote E j u = Got true (Complete m)) →
  let r := Renderer.download E wd 0 imgs [] w in
  r.1 = Ok (imap (λ i _, Renderer.imgPath wd i) imgs) ∧
  (∀ i u n, imgs !! i = Some u → Renderer.remote E i u = Got true (Complete n) →
            files r.2 !! Renderer.imgPath wd i = Some (File n)) ∧
  (∀ p, (∀ i, i < length imgs → p ≠ Renderer.imgPath wd i) →
        files r.2 !! p = files w !! p).
Proof.
  intros Hall r. split_and!.
  - apply (download_succeeds_at E wd imgs 0 [] w Hall).
  - intros i u n Hi Hr. by apply (download_stored E wd imgs 0 [] w i u n).
  - intros p Hp. by apply (download_frame E wd imgs 0 [] w p).
Qed.

Lemma download_stores_every_image_witness :
  files (Renderer.download Sample.renderer "/srv/w" 0 Sample.images [] (World ∅ [])).2
    !! "/srv/w/image-1.jpg" = Some (File 2048).
Proof.
  assert (∀ j u, Sample.images !! j = Some u →
                 ∃ m, Renderer.remote Sample.renderer j u = Got true (Complete m)) as Hall.
  { intros j u _. by exists 2048%N. }
  destruct (download_stores_every_image Sample.renderer "/srv/w" Sample.images
              (World ∅ []) Hall) as (_ & Hstored & _).
  apply (Hstored 1 "b.jpg" 2048%N); done.
Defined.

(** ** Both handlers: a job never writes onto its inputs *)

Section job_paths.

Lemma sources_of_inputs (paths : list string) :
  source <$> ((λ p, Input p (Some 3%N)) <$> paths) = paths.
Proof. induction paths as [|p paths IH]; simpl; by f_equal. Qed.

Lemma imgPaths_NoDup {A} wd (l : list A) :
  NoDup (imap (λ i _, Renderer.imgPath wd i) l).
Proof.
  rewrite imap_index. apply NoDup_fmap_2; [|apply NoDup_seq].
  intros i j. apply imgPath_inj.
Qed.

End job_paths.

(** X7.  In every job index.js spawns, the input files are pairwise
    different and the output file is none of them; in every job server.js
    spawns, the output file is not the background input.  So the encoder is
    never told to write onto a file it reads. *)
Theorem job_never_overwrites_its_inputs :
  (∀ (E : Renderer.env) (req : Renderer.request) (fs : gmap string node) (c : command),
     Spawn c ∈ log (after (Renderer.render E req) fs) →
     NoDup (source <$> inputs c) ∧
     ∀ i, i ∈ inputs c → target c ≠ Some (source i)) ∧
  (∀ (E : Server.env) (req : Server.request) (fs : gmap string node) (c : command),
     Spawn c ∈ log (after (Server.render E req) fs) →
     ∀ i, i ∈ inputs c → target c ≠ Some (source i)).
Proof.
  split.
  - intros E req fs c (imgs & _ & ->)%renderer_spawned.
    rewrite renderCommand_fields. simpl. rewrite sources_of_inputs.
    split; [apply imgPaths_NoDup|].
    intros i Hi [= Hout].
    apply (list_elem_of_fmap_2 source) in Hi. rewrite sources_of_inputs in Hi.
    rewrite <-Hout in Hi. apply list_elem_of_lookup in Hi as [k Hk].
    rewrite list_lookup_imap in Hk.
    destruct (imgs !! k); simpl in Hk; [|done].
    injection Hk as Hk. symmetry in Hk. by apply outputPath_not_image in Hk.
  - intros E req fs c ->%server_spawned i Hi [= Hout]. simpl in Hi.
    apply list_elem_of_singleton in Hi as ->. simpl in Hout.
    by apply key_not_bg in Hout.
Qed.

Lemma job_never_overwrites_its_inputs_witness :
  target (Server.renderCommand (Some "Hello") "/srv/server/temp/bg.mp4"
                               "/srv/server/temp/v1-final-video.mp4")
  ≠ Some "/srv/server/temp/bg.mp4".
Proof.
  assert (Spawn (Server.renderCommand (Some "Hello") "/srv/server/temp/bg.mp4"
                                      "/srv/server/temp/v1-final-video.mp4")
            ∈ log (after (Server.render Sample.server Sample.overlay) ∅)) as Hspawn.
  { vm_compute. apply list_elem_of_here. }
  apply (proj2 job_never_overwrites_its_inputs Sample.server Sample.overlay ∅ _ Hspawn
           (Input "/srv/server/temp/bg.mp4" None)).
  apply list_elem_of_here.
Defined.

(** ** server.js: which requests are accepted *)

Section more_server.
Variable E : Server.env.
Variable req : Server.request.
Variable fs : gmap string node.

Lemma truthy_spec v : Server.truthy v = true ↔ ∃ s, v = Some s ∧ s ≠ "".
Proof.
  destruct v as [s|]; simpl.
  - rewrite negb_true_iff, bool_decide_eq_false. split.
    + intros H. by exists s.
    + by intros (? & [= <-] & H).
  - split; [done|]. by intros (? & ? & _).
Qed.

(** An accepted request is answered 200 or 500. *)
Lemma server_valid_status :
  Server.accepted req →
  ∃ r, sent (log (after (Server.render E req) fs)) = Some r ∧
       (status r = 200 ∨ status r = 500).
Proof.
  intros Hacc. unfold after. rewrite server_valid by done.
  destruct (Server.encoder E _) as [n|d partial|];
    [destruct (Server.s3 E _) as [url|cause]| |]; simpl; eauto.
Qed.

End more_server.

(** X8.  server.js accepts a request exactly when [backgroundVideoUrl] and
    [videoId] are both present and non-empty; [title] is not looked at.  It
    answers 400 exactly when the request is not accepted, and then it sends
    the failure envelope and does nothing else: no encoder, no upload, the
    file system as it was. *)
Theorem server_rejects_incomplete_requests
    (E : Server.env) (req : Server.request) (fs : gmap string node) :
  let w := after (Server.render E req) fs in
  (Server.accepted req ↔
   (∃ u, Server.backgroundVideoUrl req = Some u ∧ u ≠ "") ∧
   (∃ v, Server.videoId req = Some v ∧ v ≠ "")) ∧
  ((∃ r, sent (log w) = Some r ∧ status r = 400) ↔ ¬ Server.accepted req) ∧
  (¬ Server.accepted req →
   log w = [Send (json 400 [("success", JBool false);
               ("error", JStr "Missing background video URL or videoId.")])] ∧
   files w = fs).
Proof.
  intros w.
  assert (¬ Server.accepted req →
          log w = [Send (json 400 [("success", JBool false);
                      ("error", JStr "Missing background video URL or videoId.")])] ∧
          files w = fs) as Hrej.
  { intros H. unfold w, after. by rewrite server_invalid. }
  split_and!; [|split|done].
  - unfold Server.accepted. by rewrite !truthy_spec.
  - intros (r & Hr & Hstatus) Hacc.
    destruct (server_valid_status E req fs Hacc) as (r' & Hr' & Hs).
    unfold w in Hr. rewrite Hr in Hr'. injection Hr' as <-.
    destruct Hs as [Hs|Hs]; rewrite Hs in Hstatus; discriminate.
  - intros H. destruct (Hrej H) as [Hlog _]. rewrite Hlog. simpl. eauto.
Qed.

Lemma server_rejects_incomplete_requests_witness :
  ¬ Server.accepted Sample.anonymous ∧
  log (after (Server.render Sample.server Sample.anonymous) Sample.stale) =
    [Send (json 400 [("success", JBool false);
            ("error", JStr "Missing background video URL or videoId.")])].
Proof.
  assert (¬ Server.accepted Sample.anonymous) as Hrej by (by intros [_ ?]).
  split; [done|].
  by apply (proj2 (proj2 (server_rejects_incomplete_requests
                            Sample.server Sample.anonymous Sample.stale))).
Defined.

(** ** server.js: the run that succeeds, and what a run may touch *)

(** X9.  server.js answers with the success envelope exactly when the
    request is accepted, the encoder completes and the upload is accepted,
    and the [videoUrl] it returns is the location the object store reported.
    On that run it spawns the encoder, uploads the output under the key
    [<videoId>-final-video.mp4], unlinks the output and answers, in this
    order, and the output path is then absent from the file system, also
    when an earlier run had left a file there. *)
Theorem server_success
    (E : Server.env) (req : Server.request) (fs : gmap string node) :
  let key := Server.outputFileName (Server.interpolate (Server.videoId req)) in
  let out := Js.pathJoin (Server.TMP_DIR (Server.dirname E)) key in
  let c := Server.renderCommand (Server.title req)
                                (Server.bgVideoPath (Server.dirname E)) out in
  let w := after (Server.render E req) fs in
  (∀ url,
     sent (log w) = Some (json 200 [("success", JBool true); ("videoUrl", JStr url)]) ↔
     Server.accepted req ∧ (∃ n, Server.encoder E c = End n) ∧
     Server.s3 E key = Location url) ∧
  (∀ n url,
     Server.accepted req → Server.encoder E c = End n → Server.s3 E key = Location url →
     log w = [Spawn c; Upload key out; Unlink out;
              Send (json 200 [("success", JBool true); ("videoUrl", JStr url)])] ∧
     files w = delete out fs).
Proof.
  intros key out c w. split.
  - intros url. unfold w, after. split.
    + intros Hsent.
      destruct (decide (Server.accepted req)) as [Hacc|Hrej].
      * rewrite server_valid in Hsent by done. fold key out c in Hsent.
        destruct (Server.encoder E c) as [n|d partial|];
          [destruct (Server.s3 E key) as [url'|cause]| |]; simpl in Hsent;
          try discriminate.
        injection Hsent as ->. eauto.
      * rewrite server_invalid in Hsent by done. simpl in Hsent. discriminate.
    + intros (Hacc & [n Henc] & Hs3).
      rewrite server_valid by done. fold key out c. by rewrite Henc, Hs3.
  - intros n url Hacc Henc Hs3. unfold w, after.
    rewrite server_valid by done. fold key out c. rewrite Henc, Hs3. simpl.
    split; [done|]. apply delete_insert_eq.
Qed.

Lemma server_success_witness :
  files (after (Server.render Sample.server Sample.overlay) Sample.stale)
  = delete "/srv/server/temp/v1-final-video.mp4" Sample.stale.
Proof.
  apply (proj2 (server_success Sample.server Sample.overlay Sample.stale) 4096%N
           "https://bucket/v1-final-video.mp4"); done.
Defined.

(** X10.  On no path does server.js change any entry of the file system
    other than the one at its own output path, which is what [path.join]
    makes of the temp directory and [<videoId>-final-video.mp4]. *)
Theorem server_touches_only_its_output
    (E : Server.env) (req : Server.request) (fs : gmap string node) (p : string) :
  p ≠ Js.pathJoin (Server.TMP_DIR (Server.dirname E))
        (Server.outputFileName (Server.interpolate (Server.videoId req))) →
  files (after (Server.render E req) fs) !! p = fs !! p.
Proof.
  intros Hp. unfold after.
  destruct (decide (Server.accepted req)) as [Hacc|Hrej].
  - rewrite server_valid by done.
    destruct (Server.encoder E _) as [n|d [n|]|];
      [destruct (Server.s3 E _) as [url|cause]|..]; simpl;
      rewrite ?lookup_delete_ne, ?lookup_insert_ne by done; done.
  - by rewrite server_invalid.
Qed.

Lemma server_touches_only_its_output_witness :
  files (after (Server.render Sample.denied Sample.overlay) Sample.stale)
    !! "/srv/server/temp" = Some Dir.
Proof.
  rewrite (server_touches_only_its_output Sample.denied Sample.overlay Sample.stale
             "/srv/server/temp"); done.
Defined.

(** X11.  A request without a [title] is accepted like any other, and the
    text drawn on the video is then the word [undefined]. *)
Theorem missing_title_draws_undefined
    (E : Server.env) (req : Server.request) (fs : gmap string node) :
  Server.accepted req → Server.title req = None →
  ∃ c, Spawn c ∈ log (after (Server.render E req) fs) ∧
       outputOpts c =
         ["-vf drawtext=text='undefined':fontsize=50:fontcolor=white:x=(w-text_w)/2:y=h-th-50:box=1:boxcolor=black@0.5:boxborderw=10";
          "-pix_fmt yuv420p"].
Proof.
  intros Hacc Htitle. unfold after. rewrite server_valid by done. rewrite Htitle.
  eexists. split.
  - destruct (Server.encoder E _) as [n|d partial|];
      [destruct (Server.s3 E _) as [url|cause]| |]; simpl; apply list_elem_of_here.
  - reflexivity.
Qed.

Lemma missing_title_draws_undefined_witness :
  ∃ c, Spawn c ∈ log (after (Server.render Sample.broken Sample.untitled) ∅) ∧
       outputOpts c =
         ["-vf drawtext=text='undefined':fontsize=50:fontcolor=white:x=(w-text_w)/2:y=h-th-50:box=1:boxcolor=black@0.5:boxborderw=10";
          "-pix_fmt yuv420p"].
Proof.
  apply (missing_title_draws_undefined Sample.broken Sample.untitled ∅); done.
Defined.

(** ** server.js: the temp directory made at start, and a retry *)

(** X12.  Loading server.js leaves the temp directory in place: it is made
    when it is missing, an entry already at its path is kept as it is, no
    other path changes, and loading the module again does nothing. *)
Theorem init_makes_temp_dir (dirname : string) (fs : gmap string node) :
  let tmp := Server.TMP_DIR dirname in
  let w := after (Server.init dirname) fs in
  is_Some (files w !! tmp) ∧
  (∀ p, p ≠ tmp → files w !! p = fs !! p) ∧
  (is_Some (fs !! tmp) → w = World fs []) ∧
  (fs !! tmp = None → w = World (<[tmp := Dir]> fs) [Mkdir tmp]) ∧
  after (Server.init dirname) (files w) = World (files w) [].
Proof.
  intros tmp w.
  assert (∀ fs0, is_Some (fs0 !! tmp) → after (Server.init dirname) fs0 = World fs0 [])
    as Hthere.
  { intros fs0 H. apply existsSync_true in H.
    unfold after, Server.init, mbind, handler_bind, getFiles, when. simpl.
    fold tmp. by rewrite H. }
  assert (fs !! tmp = None → w = World (<[tmp := Dir]> fs) [Mkdir tmp]) as Hmissing.
  { intros H. unfold w, after, Server.init, mbind, handler_bind, getFiles, when. simpl.
    fold tmp. unfold Fs.existsSync. rewrite bool_decide_eq_false_2; [done|].
    rewrite H. by intros [? ?]. }
  assert (is_Some (files w !! tmp)) as Hsome.
  { destruct (fs !! tmp) as [x|] eqn:Hx.
    - unfold w. rewrite (Hthere fs) by eauto. simpl. rewrite Hx. eauto.
    - rewrite Hmissing by done. simpl. rewrite lookup_insert_eq. eauto. }
  split_and!; [done| |by apply Hthere|done|by apply Hthere].
  intros p Hp. destruct (fs !! tmp) as [x|] eqn:Hx.
  - unfold w. by rewrite (Hthere fs) by eauto.
  - rewrite Hmissing by done. simpl. by rewrite lookup_insert_ne.
Qed.

(** X13.  A leftover is removed by the next success: when a request fails
    at the upload and the same request is then served successfully by the
    same installation, the output path is absent afterwards, as it is after
    a success on a clean temp directory. *)
Theorem retry_removes_leftover
    (E1 E2 : Server.env) (req : Server.request) (fs : gmap string node)
    (n1 n2 : N) (cause url : string) :
  let key := Server.outputFileName (Server.interpolate (Server.videoId req)) in
  let out := Js.pathJoin (Server.TMP_DIR (Server.dirname E1)) key in
  let c := Server.renderCommand (Server.title req)
                                (Server.bgVideoPath (Server.dirname E1)) out in
  Server.accepted req →
  Server.dirname E2 = Server.dirname E1 →
  Server.encoder E1 c = End n1 → Server.s3 E1 key = Rejected cause →
  Server.encoder E2 c = End n2 → Server.s3 E2 key = Location url →
  let failed := files (after (Server.render E1 req) fs) in
  failed !! out = Some (File n1) ∧
  files (after (Server.render E2 req) failed) = delete out fs.
Proof.
  intros key out c Hacc Hdir Henc1 Hs1 Henc2 Hs2 failed.
  assert (failed = <[out := File n1]> fs) as ->.
  { unfold failed, after. rewrite server_valid by done. fold key out c.
    by rewrite Henc1, Hs1. }
  split; [apply lookup_insert_eq|].
  unfold after. rewrite server_valid by done. rewrite Hdir. fold key out c.
  rewrite Henc2, Hs2. simpl. by rewrite !delete_insert_eq.
Qed.

Lemma retry_removes_leftover_witness :
  files (after (Server.render Sample.server Sample.overlay)
           (files (after (Server.render Sample.denied Sample.overlay) ∅))) = ∅.
Proof.
  rewrite <-(delete_empty (M:=gmap string) (A:=node) "/srv/server/temp/v1-final-video.mp4").
  apply (retry_removes_leftover Sample.denied Sample.server Sample.overlay ∅
           4096 4096 "Access Denied" "https://bucket/v1-final-video.mp4"); done.
Defined.

(** ** When the encoder runs, and what follows it *)


(** X15.  index.js spawns the encoder exactly when the request has images
    and every one of them was downloaded completely: after a fetch that
    rejects, answers with a non-success status, fails while it is written or
    stalls, for whichever image, no encoder runs. *)
Theorem encoder_runs_iff_all_downloaded
    (E : Renderer.env) (req : Renderer.request) (fs : gmap string node) :
  (∃ c, Spawn c ∈ log (after (Renderer.render E req) fs)) ↔
  (∃ imgs, Renderer.images req = Some imgs ∧ imgs ≠ [] ∧
           ∀ j u, imgs !! j = Some u →
                  ∃ n, Renderer.remote E j u = Got true (Complete n)).
Proof.
  split.
  - intros [c Hc].
    destruct (Renderer.images req) as [[|url rest]|] eqn:Himg.
    + unfold after in Hc. rewrite renderer_invalid in Hc by auto. simpl in Hc.
      by apply list_elem_of_singleton in Hc.
    + exists (url :: rest). split; [done|]. split; [done|].
      set (wd := Renderer.workDir (Renderer.dirname E) (Renderer.now E)).
      set (w1 := (Renderer.createTempDir wd (World fs [])).2).
      apply (download_completes_iff E wd (url :: rest) 0 [] w1).
      unfold after in Hc. rewrite (renderer_run E _ _ _ Himg) in Hc by done.
      fold wd w1 in Hc.
      pose proof (renderer_prelude E (url :: rest) fs) as Hpre. cbv zeta in Hpre.
      fold wd w1 in Hpre.
      destruct (Renderer.download E wd 0 (url :: rest) [] w1) as [[paths|e|] w2];
        [by eexists|..]; exfalso; simpl in Hc, Hpre.
      * apply elem_of_app in Hc as [Hc|Hc]; [by apply prelude_not_spawn in Hc|]. among Hc.
      * by apply prelude_not_spawn in Hc.
    + unfold after in Hc. rewrite renderer_invalid in Hc by auto. simpl in Hc.
      by apply list_elem_of_singleton in Hc.
  - intros (imgs & Himg & Hne & Hall). eexists.
    by apply (renderer_spawns E req fs imgs).
Qed.

(** X16.  server.js runs its stages strictly one after the other: it
    spawns the encoder exactly for accepted requests, hands the output to
    the object store exactly when the encoder has completed and left its
    output file, and unlinks the output exactly when the upload was
    accepted; what it uploads and unlinks is its own output file, under the
    key [<videoId>-final-video.mp4]. *)
Theorem server_stages
    (E : Server.env) (req : Server.request) (fs : gmap string node) :
  let key := Server.outputFileName (Server.interpolate (Server.videoId req)) in
  let out := Js.pathJoin (Server.TMP_DIR (Server.dirname E)) key in
  let c := Server.renderCommand (Server.title req)
                                (Server.bgVideoPath (Server.dirname E)) out in
  let w := after (Server.render E req) fs in
  ((∃ c', Spawn c' ∈ log w) ↔ Server.accepted req) ∧
  (∀ k p, Upload k p ∈ log w ↔
          k = key ∧ p = out ∧ Server.accepted req ∧ ∃ n, Server.encoder E c = End n) ∧
  (∀ p, Unlink p ∈ log w ↔
        p = out ∧ Server.accepted req ∧ (∃ n, Server.encoder E c = End n) ∧
        ∃ url, Server.s3 E key = Location url).
Proof.
  intros key out c w. unfold w, after.
  destruct (decide (Server.accepted req)) as [Hacc|Hrej].
  - rewrite server_valid by done. fold key out c.
    destruct (Server.encoder E c) as [n|d partial|];
      [destruct (Server.s3 E key) as [url|cause]| |]; simpl.
    + split_and!.
      * split; [done|]. intros _. exists c. apply list_elem_of_here.
      * intros k p. split.
        -- intros Hin.
           repeat (apply elem_of_cons in Hin as [Hin|Hin]; [by simplify_eq; eauto 6|]).
           by apply elem_of_nil in Hin.
        -- intros (-> & -> & _). apply list_elem_of_further, list_elem_of_here.
      * intros p. split.
        -- intros Hin.
           repeat (apply elem_of_cons in Hin as [Hin|Hin]; [by simplify_eq; eauto 8|]).
           by apply elem_of_nil in Hin.
        -- intros (-> & _). do 2 apply list_elem_of_further. apply list_elem_of_here.
    + split_and!.
      * split; [done|]. intros _. exists c. apply list_elem_of_here.
      * intros k p. split.
        -- intros Hin.
           repeat (apply elem_of_cons in Hin as [Hin|Hin]; [by simplify_eq; eauto 6|]).
           by apply elem_of_nil in Hin.
        -- intros (-> & -> & _). apply list_elem_of_further, list_elem_of_here.
      * intros p. split.
        -- intros Hin.
           repeat (apply elem_of_cons in Hin as [Hin|Hin]; [by simplify_eq|]).
           by apply elem_of_nil in Hin.
        -- by intros (_ & _ & _ & url & ?).
    + split_and!.
      * split; [done|]. intros _. exists c. apply list_elem_of_here.
      * intros k p. split.
        -- intros Hin.
           repeat (apply elem_of_cons in Hin as [Hin|Hin]; [by simplify_eq|]).
           by apply elem_of_nil in Hin.
        -- by intros (_ & _ & _ & n & ?).
      * intros p. split.
        -- intros Hin.
           repeat (apply elem_of_cons in Hin as [Hin|Hin]; [by simplify_eq|]).
           by apply elem_of_nil in Hin.
        -- by intros (_ & _ & [n ?] & _).
    + split_and!.
      * split; [done|]. intros _. exists c. apply list_elem_of_here.
      * intros k p. split.
        -- intros Hin.
           repeat (apply elem_of_cons in Hin as [Hin|Hin]; [by simplify_eq|]).
           by apply elem_of_nil in Hin.
        -- by intros (_ & _ & _ & n & ?).
      * intros p. split.
        -- intros Hin.
           repeat (apply elem_of_cons in Hin as [Hin|Hin]; [by simplify_eq|]).
           by apply elem_of_nil in Hin.
        -- by intros (_ & _ & [n ?] & _).
  - rewrite server_invalid by done. simpl. split_and!.
    + split; [|done]. intros [c' Hin]. by apply list_elem_of_singleton in Hin.
    + intros k p. split; [|by intros (_ & _ & ? & _)].
      intros Hin. by apply list_elem_of_singleton in Hin.
    + intros p. split; [|by intros (_ & ? & _)].
      intros Hin. by apply list_elem_of_singleton in Hin.
Qed.

(** ** server.js: a [videoId] that names another directory *)

(** X18.  server.js takes the [videoId] into the output path as it comes,
    and [path.join] resolves it.  For a [videoId] that starts with [../] the
    output path is [path.join(__dirname, ...)]: next to the temp directory,
    not in it.  The job writes there, and a run that succeeds has unlinked
    that path, so that a file that was there before the request is gone. *)
Theorem videoId_leads_outside_temp
    (E : Server.env) (req : Server.request) (fs : gmap string node) (v : string) :
  Server.accepted req →
  Server.videoId req = Some ("../" +:+ v) →
  Js.slashFree v = true →
  let out := Js.pathJoin (Server.dirname E) (Server.outputFileName v) in
  let w := after (Server.render E req) fs in
  Fs.below (Server.TMP_DIR (Server.dirname E)) out = false ∧
  (∃ c, Spawn c ∈ log w) ∧
  (∀ c, Spawn c ∈ log w → target c = Some out) ∧
  (∀ url, sent (log w) = Some (json 200 [("success", JBool true); ("videoUrl", JStr url)]) →
          Unlink out ∈ log w ∧ files w !! out = None).
Proof.
  intros Hacc Hvid Hv out w.
  assert (Js.pathJoin (Server.TMP_DIR (Server.dirname E))
            (Server.outputFileName (Server.interpolate (Server.videoId req))) = out) as Hout.
  { rewrite Hvid. simpl. unfold Server.outputFileName at 1. rewrite app_assoc'.
    by apply pathJoin_parent, plain_outputFileName. }
  split_and!.
  - unfold out, Server.TMP_DIR, Fs.below.
    rewrite !pathJoin_plain by (try done; by apply plain_outputFileName).
    destruct (String.prefix _ _) eqn:H; [|done]. exfalso.
    apply prefix_inv in H as [u H]. rewrite !app_assoc' in H.
    apply (inj (String.app _)) in H.
    apply (f_equal Js.slashFree) in H. unfold Server.outputFileName in H.
    rewrite !slashFree_app, Hv in H. done.
  - unfold w, after. rewrite server_valid by done. eexists.
    destruct (Server.encoder E _) as [n|d partial|];
      [destruct (Server.s3 E _) as [url|cause]| |]; simpl; apply list_elem_of_here.
  - intros c ->%server_spawned. simpl. by rewrite Hout.
  - intros url. unfold w, after. rewrite server_valid by done. rewrite Hout.
    destruct (Server.encoder E _) as [n|d partial|];
      [destruct (Server.s3 E _) as [url'|cause]| |]; simpl; try discriminate.
    intros _. split; [|apply lookup_delete_eq].
    do 2 apply list_elem_of_further. apply list_elem_of_here.
Qed.

Lemma videoId_leads_outside_temp_witness :
  Sample.beside !! "/srv/server/v1-final-video.mp4" = Some (File 5) ∧
  Fs.below "/srv/server/temp" "/srv/server/v1-final-video.mp4" = false ∧
  files (after (Server.render Sample.server Sample.escaping) Sample.beside)
    !! "/srv/server/v1-final-video.mp4" = None.
Proof.
  assert (Server.accepted Sample.escaping) as Hacc by done.
  destruct (videoId_leads_outside_temp Sample.server Sample.escaping Sample.beside "v1"
              Hacc eq_refl eq_refl) as (Hbelow & _ & _ & Hgone).
  split; [done|]. split; [exact Hbelow|].
  apply (Hgone "https://bucket/../v1-final-video.mp4"). by vm_compute.
Defined.
